(** * kaijusolver: the contest template [kevin/main.cpp]

    A shallow embedding of the helper functions of the template (bit
    helpers, [amin]/[amax], [print], [read], the debug printer [_cerr],
    the [debug] macros, [solve] and [main]) together with the properties
    stated about them.

    Conventions.
    - [int] is a 32-bit and [long long] a 64-bit two's complement integer,
      [unsigned long long] a 64-bit unsigned one.  All three are carried by
      [Z]; every conversion between them is written out.
    - A shift count outside the width and an index outside a vector, which
      C++ leaves undefined, yield [None].
    - A stream is the string of the characters written to it, or still to
      be read from it; the streams are taken to be in the good state. *)

From Stdlib Require Import ZArith Lia Bool List String Ascii DecimalString.
From coqutil Require Word.LittleEndianList.
Import ListNotations.
Local Open Scope Z_scope.

(** ** Machine integers *)

Module Bits.

(** The two integer types the bit helpers are overloaded on. *)
Inductive ity : Type := TInt | TLL.

Definition width (t : ity) : Z :=
  match t with TInt => 32 | TLL => 64 end.

(** The values of a signed type of [w] bits. *)
Definition in_signed (w a : Z) : Prop := - 2 ^ (w - 1) <= a < 2 ^ (w - 1).

Definition in_int (a : Z) : Prop := in_signed 32 a.
Definition in_ll (a : Z) : Prop := in_signed 64 a.
Definition in_range (t : ity) (a : Z) : Prop := in_signed (width t) a.

(** Conversion to a signed type of [w] bits keeps the value modulo [2^w]. *)
Definition to_signed (w x : Z) : Z := (x + 2 ^ (w - 1)) mod 2 ^ w - 2 ^ (w - 1).

(** [int(e)] and [ll(e)]. *)
Definition to_int (x : Z) : Z := to_signed 32 x.
Definition to_ll (x : Z) : Z := to_signed 64 x.

(** The conversion to [unsigned long long] that the usual arithmetic
    conversions apply to a signed operand of [&] when the other operand is
    [unsigned long long]. *)
Definition to_ull (x : Z) : Z := x mod 2 ^ 64.

(** [1ULL << b]: defined for [0 <= b < 64] only. *)
Definition shl_1ULL (b : Z) : option Z :=
  if (0 <=? b) && (b <? 64) then Some (Z.shiftl 1 b) else None.

(** [~m] on [unsigned long long]. *)
Definition not_ull (m : Z) : Z := to_ull (Z.lnot m).

(** [!!e] on an integer, as the [int] the functions return. *)
Definition bangbang (e : Z) : Z := if e =? 0 then 0 else 1.

(** [void setBit(int &a, int b) { a |= int(1ULL<<b);}]
    The new value of [a] is returned. *)
Definition setBit_int (a b : Z) : option Z :=
  match shl_1ULL b with
  | Some m => Some (Z.lor a (to_int m))
  | None => None
  end.

(** [void setBit(ll &a, int b) {a |= ll(1ULL<<b);}] *)
Definition setBit_ll (a b : Z) : option Z :=
  match shl_1ULL b with
  | Some m => Some (Z.lor a (to_ll m))
  | None => None
  end.

(** [void clearBit(int &a, int b) { a &= int(~(1ULL<<b));}] *)
Definition clearBit_int (a b : Z) : option Z :=
  match shl_1ULL b with
  | Some m => Some (Z.land a (to_int (not_ull m)))
  | None => None
  end.

(** [void clearBit(ll &a, int b) { a &= ll(~(1ULL<<b));}] *)
Definition clearBit_ll (a b : Z) : option Z :=
  match shl_1ULL b with
  | Some m => Some (Z.land a (to_ll (not_ull m)))
  | None => None
  end.

(** [void toggleBit(int &a, int b) { a ^= int(1ULL<<b);}] *)
Definition toggleBit_int (a b : Z) : option Z :=
  match shl_1ULL b with
  | Some m => Some (Z.lxor a (to_int m))
  | None => None
  end.

(** [void toggleBit(ll &a, int b) { a ^= ll(1ULL<<b);}] *)
Definition toggleBit_ll (a b : Z) : option Z :=
  match shl_1ULL b with
  | Some m => Some (Z.lxor a (to_ll m))
  | None => None
  end.

(** [int checkBit(int a, int b) {return !!(a & (1ULL<<b));}]
    [a] is converted to [unsigned long long] before the [&]. *)
Definition checkBit_int (a b : Z) : option Z :=
  match shl_1ULL b with
  | Some m => Some (bangbang (Z.land (to_ull a) m))
  | None => None
  end.

(** [int checkBit(ll a, int b) {return !!(a & (1ULL<<b));}] *)
Definition checkBit_ll (a b : Z) : option Z :=
  match shl_1ULL b with
  | Some m => Some (bangbang (Z.land (to_ull a) m))
  | None => None
  end.

(** Overload resolution on the static type of the first argument. *)
Definition setBit (t : ity) : Z -> Z -> option Z :=
  match t with TInt => setBit_int | TLL => setBit_ll end.
Definition clearBit (t : ity) : Z -> Z -> option Z :=
  match t with TInt => clearBit_int | TLL => clearBit_ll end.
Definition toggleBit (t : ity) : Z -> Z -> option Z :=
  match t with TInt => toggleBit_int | TLL => toggleBit_ll end.
Definition checkBit (t : ity) : Z -> Z -> option Z :=
  match t with TInt => checkBit_int | TLL => checkBit_ll end.

(** The conversion each overload applies to its mask: [int(...)] or
    [ll(...)]. *)
Definition conv (t : ity) : Z -> Z :=
  match t with TInt => to_int | TLL => to_ll end.

(** Running a mutator and then a query on the updated variable. *)
Definition andThen {A B : Type} (r : option A) (k : A -> option B) : option B :=
  match r with Some x => k x | None => None end.

End Bits.

(** ** [amin] and [amax] *)

Module MinMax.

Section Generic.
(** [template<typename T, typename U>]: the type of the variable and the
    type of the candidate value. *)
Variables T U : Type.
(** [y < x] and [y > x] as the two types define them, and the conversion
    the assignment [x = y] applies. *)
Variable lt_UT : U -> T -> bool.
Variable gt_UT : U -> T -> bool.
Variable assign : U -> T.

(** [inline void amin(T &x, U y){if(y < x) x = y;}]
    The new value of [x] is returned. *)
Definition amin (x : T) (y : U) : T :=
  if lt_UT y x then assign y else x.

(** [inline void amax(T &x, U y){if(y > x) x = y;}] *)
Definition amax (x : T) (y : U) : T :=
  if gt_UT y x then assign y else x.
End Generic.

Section Order.
(** One type for both arguments, with its [<]. *)
Variable T : Type.
Variable ltb : T -> T -> bool.
Variable gtb : T -> T -> bool.

(** [amin] and [amax] with both arguments of type [T]: the assignment
    copies the candidate. *)
Definition amin_same : T -> T -> T := amin T T ltb (fun y => y).
Definition amax_same : T -> T -> T := amax T T gtb (fun y => y).

(** [a <= b], as [!(b < a)]. *)
Definition le (a b : T) : Prop := ltb b a = false.

(** [m] is the minimum (maximum) of [x] and [y]. *)
Definition minimum_of (m x y : T) : Prop :=
  (m = x \/ m = y) /\ le m x /\ le m y.
Definition maximum_of (m x y : T) : Prop :=
  (m = x \/ m = y) /\ le x m /\ le y m.
End Order.

(** The instance at [int]: both arguments of type [int], compared as
    integers, assigned without conversion. *)
Definition amin_int : Z -> Z -> Z := amin Z Z Z.ltb (fun y => y).
Definition amax_int : Z -> Z -> Z := amax Z Z Z.gtb (fun y => y).

(** The instance with an [int] variable and a [long long] candidate: the
    comparison is made on [long long], the assignment converts to [int]. *)
Definition amin_int_ll : Z -> Z -> Z := amin Z Z Z.ltb Bits.to_int.
Definition amax_int_ll : Z -> Z -> Z := amax Z Z Z.gtb Bits.to_int.

End MinMax.

(** ** Character streams *)

Module Text.
Local Open Scope string_scope.

(** Decimal text of an integer, as [operator<<] writes it with the default
    formatting flags. *)
Definition dec (x : Z) : string :=
  DecimalString.NilZero.string_of_int (Z.to_int x).

(** [#define endl "\n"] and [#define spc " "]: in this file [endl] is the
    one-character string, not the flushing manipulator. *)
Definition endl : string := String "010" EmptyString.
Definition spc : string := " ".

End Text.

(** ** [print] on a vector *)

Module Output.
Import Bits Text.
Local Open Scope string_scope.

(** [for(auto i = (a); i < (b); i++)] with a body that may be undefined:
    [k] iterations from [i] upwards. *)
Fixpoint iterate {S : Type} (body : Z -> S -> option S)
    (i : Z) (k : nat) (s : S) : option S :=
  match k with
  | O => Some s
  | Datatypes.S k' =>
      match body i s with
      | Some s' => iterate body (i + 1) k' s'
      | None => None
      end
  end.

(** [#define FOR(i, a, b) for(auto i = (a); i < (b); i++)]: no iteration
    when [b <= a]. *)
Definition FOR {S : Type} (a b : Z) (body : Z -> S -> option S) (s : S)
    : option S :=
  iterate body a (Z.to_nat (b - a)) s.

Section Print.
(** The element type and the text [cout << x] writes for an element. *)
Variable T : Type.
Variable show : T -> string.

(** [#define sz(x) int((x).size())] *)
Definition sz (v : list T) : Z := to_int (Z.of_nat (List.length v)).

(** [v[i]] for an [int] index: undefined outside the vector. *)
Definition at_index (v : list T) (i : Z) : option T :=
  if (i <? 0)%Z then None else nth_error v (Z.to_nat i).

(** [" \n"[i==sz(v)-1]]: the character of the literal at index 0 or 1.
    Where the loop body runs, [sz(v)] is at least 1, so the subtraction
    stays inside [int]. *)
Definition separator (v : list T) (i : Z) : option ascii :=
  String.get (if (i =? sz v - 1)%Z then 1%nat else 0%nat) (String " " endl).

(** [cout << v[i] << " \n"[i==sz(v)-1];] *)
Definition print_step (v : list T) (i : Z) (cout : string) : option string :=
  match at_index v i, separator v i with
  | Some x, Some c => Some (cout ++ show x ++ String c EmptyString)
  | _, _ => None
  end.

(** [template<typename T>
     void print(vec<T> v){FOR(i, 0, sz(v)) cout << v[i] << " \n"[i==sz(v)-1];}]
    The characters written are appended to [cout]. *)
Definition print (v : list T) (cout : string) : option string :=
  FOR 0 (sz v) (print_step v) cout.

(** What the description of [print] says is written: the elements in
    index order, one space after every element but the last, one newline
    after the last. *)
Fixpoint spaced_line (v : list T) : string :=
  match v with
  | [] => EmptyString
  | [x] => show x ++ endl
  | x :: rest => show x ++ spc ++ spaced_line rest
  end.
End Print.

(** A [vector<int>] of 2^31 zeros, the shortest size that does not fit
    [int]. *)
Definition huge : list Z := repeat 0%Z (Z.to_nat 2147483648).

End Output.

(** ** The debug printer *)

Module Debug.
Import Bits Text.
Local Open Scope string_scope.

(** The values the overloads of [_cerr] accept.  A floating value is
    carried by the text [cerr << x] writes for it; a bitset by its bits in
    index order. *)
Unset Elimination Schemes.
Inductive dval : Type :=
| DInt (x : Z)
| DLong (x : Z)
| DLongLong (x : Z)
| DUnsigned (x : Z)
| DULong (x : Z)
| DULongLong (x : Z)
| DFloating (text : string)
| DChar (c : ascii)
| DCString (s : string)
| DString (s : string)
| DBool (x : bool)
| DBitset (bits : list bool)
| DPair (a b : dval)
| DContainer (elems : list dval).
Set Elimination Schemes.

Definition quote : string := String "034" EmptyString.
Definition tick : string := String "039" EmptyString.

(** The [n] low bits of [x], highest first, as [operator<<] writes a
    [bitset<n>]. *)
Fixpoint bits_msb_first (n : nat) (x : Z) : string :=
  match n with
  | O => EmptyString
  | S k => String (if Z.testbit x (Z.of_nat k) then "1" else "0")%char
                  (bits_msb_first k x)
  end.

(** [template<typename T>
     void toBin(T a) {cerr << "[" << bitset<8*sizeof(a)>(a) << "]";}]
    [size_of] is [sizeof(a)]; the bitset is built from [a] converted to
    [unsigned long long]. *)
Definition toBin (size_of : nat) (a : Z) (cerr : string) : string :=
  cerr ++ "[" ++ bits_msb_first (8 * size_of) (to_ull a) ++ "]".

(** [FOR(i,0,N)cerr<<x[i]?1:0;]: every bit is written as a [bool], the
    conditional applies to the stream and its value is dropped. *)
Fixpoint put_bits (bits : list bool) (cerr : string) : string :=
  match bits with
  | [] => cerr
  | x :: rest => put_bits rest (cerr ++ (if x then "1" else "0"))
  end.

(** The overloads of [_cerr(x, b)], lines 126 to 145: the text a call
    writes when it compiles; which calls compile is [resolves] below.
    [cerr] in these
    bodies is the stream itself in both builds: the macro that replaces
    [cerr] is defined below them.  The sizes handed to [toBin] are those
    of the LP64 data model ([int] 4, [long] and [long long] 8); a [char]
    is given by its code, whose low 8 bits are what [bitset<8>] keeps.
    The counter [f] of the container overload is an [int] in the source
    and counts on here. *)
Fixpoint _cerr (x : dval) (b : bool) (cerr : string) : string :=
  match x with
  | DInt v =>
      let cerr := cerr ++ dec v in if b then toBin 4 v cerr else cerr
  | DLong v =>
      let cerr := cerr ++ dec v in if b then toBin 8 v cerr else cerr
  | DLongLong v =>
      let cerr := cerr ++ dec v in if b then toBin 8 v cerr else cerr
  | DUnsigned v =>
      let cerr := cerr ++ dec v in if b then toBin 4 v cerr else cerr
  | DULong v => cerr ++ dec v
  | DULongLong v => cerr ++ dec v
  | DFloating text => cerr ++ text
  | DChar c =>
      let cerr := cerr ++ tick ++ String c EmptyString ++ tick in
      if b then toBin 1 (Z.of_N (N_of_ascii c)) cerr else cerr
  | DCString s => cerr ++ quote ++ s ++ quote
  | DString s => cerr ++ quote ++ s ++ quote
  | DBool v =>
      let cerr := cerr ++ (if v then "true" else "false") in
      if b then toBin 1 (Z.b2z v) cerr else cerr
  | DBitset bits => put_bits bits cerr
  | DPair a c =>
      let cerr := cerr ++ "{" in
      let cerr := _cerr a b cerr in
      let cerr := cerr ++ ", " in
      let cerr := _cerr c b cerr in
      cerr ++ "}"
  | DContainer elems =>
      let cerr := cerr ++ "{" in
      let cerr :=
        (fix each (l : list dval) (f : Z) (cerr : string) : string :=
           match l with
           | [] => cerr
           | i :: rest =>
               let cerr := cerr ++ (if (f =? 0)%Z then EmptyString else ", ") in
               let f := (f + 1)%Z in
               let cerr := _cerr i b cerr in
               each rest f cerr
           end) elems 0%Z cerr in
      cerr ++ "}"
  end.

(** The loop of the container overload, by itself. *)
Fixpoint each_elem (b : bool) (l : list dval) (f : Z) (cerr : string) : string :=
  match l with
  | [] => cerr
  | i :: rest =>
      let cerr := cerr ++ (if (f =? 0)%Z then EmptyString else ", ") in
      let f := (f + 1)%Z in
      let cerr := _cerr i b cerr in
      each_elem b rest f cerr
  end.

(** [cerr << s] below line 154: with [ONLINE_JUDGE] it reads
    [if(false)cerr << s] and writes nothing. *)
Definition cerr_put (ONLINE_JUDGE : bool) (cerr s : string) : string :=
  if ONLINE_JUDGE then cerr else cerr ++ s.

(** [replace(_s.begin(),_s.end(),',',' ')] *)
Fixpoint replace_commas (s : string) : string :=
  match s with
  | EmptyString => EmptyString
  | String c r =>
      String (if Ascii.eqb c "," then " " else c)%char (replace_commas r)
  end.

Definition is_space (c : ascii) : bool :=
  let n := nat_of_ascii c in
  (Nat.eqb n 32 || (Nat.leb 9 n && Nat.leb n 13))%bool.

(** The whitespace-separated words an [istream_iterator<string>] yields;
    [cur] is the word being read. *)
Fixpoint words_from (cur : string) (s : string) : list string :=
  match s with
  | EmptyString =>
      match cur with EmptyString => [] | _ => [cur] end
  | String c r =>
      if is_space c then
        match cur with
        | EmptyString => words_from EmptyString r
        | _ => cur :: words_from EmptyString r
        end
      else words_from (cur ++ String c EmptyString) r
  end.

Definition words (s : string) : list string := words_from EmptyString s.

(** An [istream_iterator<string>]: the word it holds and the words still
    in the stream.  Past the last word the iterator keeps the word it
    holds. *)
Record iter : Type := { current : string; upcoming : list string }.

Definition iter_begin (ws : list string) : iter :=
  match ws with
  | [] => {| current := EmptyString; upcoming := [] |}
  | w :: r => {| current := w; upcoming := r |}
  end.

Definition iter_next (it : iter) : iter :=
  match upcoming it with
  | [] => it
  | w :: r => {| current := w; upcoming := r |}
  end.

(** [void err(istream_iterator<string> it) {cerr << endl;}] and
    [void err(istream_iterator<string> it,T a,Args... args)
       {cerr<<*it<<" = ";_cerr(a);cerr<<endl;err(++it,args...);}] *)
Fixpoint err (ONLINE_JUDGE : bool) (it : iter) (args : list dval)
    (cerr : string) : string :=
  match args with
  | [] => cerr_put ONLINE_JUDGE cerr endl
  | a :: rest =>
      let cerr := cerr_put ONLINE_JUDGE cerr (current it ++ " = ") in
      let cerr := _cerr a false cerr in
      let cerr := cerr_put ONLINE_JUDGE cerr endl in
      err ONLINE_JUDGE (iter_next it) rest cerr
  end.

(** [errbin]: as [err], with [_cerr(a,1)]. *)
Fixpoint errbin (ONLINE_JUDGE : bool) (it : iter) (args : list dval)
    (cerr : string) : string :=
  match args with
  | [] => cerr_put ONLINE_JUDGE cerr endl
  | a :: rest =>
      let cerr := cerr_put ONLINE_JUDGE cerr (current it ++ " = ") in
      let cerr := _cerr a true cerr in
      let cerr := cerr_put ONLINE_JUDGE cerr endl in
      errbin ONLINE_JUDGE (iter_next it) rest cerr
  end.

(** The macro [debug(args...)].  [text] is the stringified argument list
    [#args], [args] the values of the arguments.  Without [ONLINE_JUDGE] it
    expands to the block that calls [err]; with it, to [{}]. *)
Definition debug (ONLINE_JUDGE : bool) (text : string) (args : list dval)
    (cerr : string) : string :=
  if ONLINE_JUDGE then cerr
  else err false (iter_begin (words (replace_commas text))) args cerr.

(** The macro [debugbin(args...)]. *)
Definition debugbin (ONLINE_JUDGE : bool) (text : string) (args : list dval)
    (cerr : string) : string :=
  if ONLINE_JUDGE then cerr
  else errbin false (iter_begin (words (replace_commas text))) args cerr.

(** Whether the call [_cerr(x)] compiles.  The overload on pairs (lines
    142 and 143) is declared before the overload on containers (lines 144
    and 145).  Its calls [_cerr(x.F,b)] and [_cerr(x.S,b)] are looked up
    where the template is defined, which finds the overloads of lines 126
    to 143, and by argument-dependent lookup in the namespaces of the
    argument, which for a container of the standard library is [std]: no
    overload takes a component that is such a container.  The overload on
    containers is declared last and reaches every overload for its
    elements.  [DContainer] is read here as a container whose type brings
    in no namespace but that of its library ([vector], [set], [map], ...). *)
Fixpoint resolves (x : dval) : bool :=
  match x with
  | DPair a c =>
      match a with DContainer _ => false | _ => resolves a end
      && match c with DContainer _ => false | _ => resolves c end
  | DContainer elems =>
      (fix all (l : list dval) : bool :=
         match l with
         | [] => true
         | i :: rest => resolves i && all rest
         end) elems
  | _ => true
  end.

(** A call [_cerr(x, b)] in a program: no program, when the call does not
    compile; else the stream after the call. *)
Definition _cerr_call (x : dval) (b : bool) (cerr : string) : option string :=
  if resolves x then Some (_cerr x b cerr) else None.

(** The values that are neither pairs nor containers. *)
Definition leaf (x : dval) : Prop :=
  match x with
  | DPair _ _ | DContainer _ => False
  | _ => True
  end.

Section Induction.
Variable P : dval -> Prop.
Hypothesis P_leaf : forall x, leaf x -> P x.
Hypothesis P_pair : forall a b, P a -> P b -> P (DPair a b).
Hypothesis P_container : forall l, Forall P l -> P (DContainer l).

(** Induction on a debug value, through pairs and containers. *)
Fixpoint dval_induction (x : dval) : P x :=
  match x with
  | DPair a b => P_pair a b (dval_induction a) (dval_induction b)
  | DContainer l =>
      P_container l
        ((fix all (l : list dval) : Forall P l :=
            match l with
            | [] => Forall_nil P
            | y :: r => Forall_cons y (dval_induction y) (all r)
            end) l)
  | y => P_leaf y I
  end.
End Induction.

(** What a value writes does not depend on what the stream holds. *)
Definition appends (x : dval) : Prop :=
  forall b cerr, _cerr x b cerr = cerr ++ _cerr x b EmptyString.

End Debug.

(** ** [read] *)

Module Input.

Section Read.
(** The state of [cin], the content of a variable passed by reference,
    and [cin >> x] of the standard library: it takes the stream and the
    variable as they are and leaves both updated. *)
Variable istream : Type.
Variable cell : Type.
Variable extract : istream -> cell -> istream * cell.

(** [template<typename... Args>
     void read(Args&... args){((cin >> args), ...);}]
    A fold over the comma operator: the extraction into the first
    argument is sequenced before those into the rest.  The stream and the
    variables, in argument order, are returned as the call leaves them. *)
Fixpoint read (cin : istream) (args : list cell) : istream * list cell :=
  match args with
  | [] => (cin, [])
  | x :: rest =>
      let (cin, x') := extract cin x in
      let (cin, rest') := read cin rest in
      (cin, x' :: rest')
  end.
End Read.

(** The variables after a call that took the tokens [toks], when a token
    [t] gives a variable holding [x] the value [store t x]. *)
Definition stored {token cell : Type} (store : token -> cell -> cell)
    (toks : list token) (args : list cell) : list cell :=
  map (fun p => store (fst p) (snd p)) (combine toks args).

(** A stream of whitespace-separated words read into [string] variables:
    the words not yet read and the fail bit.  An extraction on a failed or
    exhausted stream leaves the variable as it was. *)
Record word_stream : Type := { pending_words : list string; failed : bool }.

Definition extract_word (s : word_stream) (x : string) : word_stream * string :=
  if failed s then (s, x)
  else
    match pending_words s with
    | w :: r => ({| pending_words := r; failed := false |}, w)
    | [] => ({| pending_words := []; failed := true |}, x)
    end.

(** The words an extraction can still see. *)
Definition visible_words (s : word_stream) : list string :=
  if failed s then [] else pending_words s.

End Input.

(** ** [solve] and [main] *)

Module Program.
Import Text.
Local Open Scope string_scope.

(** Where a standard stream is attached: where the process found it, or
    the file and mode of the last [freopen] on it.  [main] drops the result
    of [freopen]; the file asked for is what is recorded. *)
Inductive target : Type :=
| Inherited
| File (path mode : string).

(** The state [main] acts on. *)
Record world : Type := {
  stdin_target : target;
  stdout_target : target;
  cin_pending : string;     (* input not yet read *)
  cout_written : string;    (* text written to standard output so far *)
  cerr_written : string;    (* text written to the error stream so far *)
  sync_with_stdio : bool;
  cin_tied : bool
}.

(** What the run finds outside: the content of a file when it is opened
    for reading, and the two readings of [high_resolution_clock], in
    nanoseconds. *)
Record env : Type := {
  file_content : string -> string;
  clock_start : Z;
  clock_end : Z
}.

(** [freopen(path, mode, stdin)] *)
Definition freopen_stdin (path mode : string) (e : env) (w : world) : world :=
  {| stdin_target := File path mode;
     stdout_target := stdout_target w;
     cin_pending := file_content e path;
     cout_written := cout_written w;
     cerr_written := cerr_written w;
     sync_with_stdio := sync_with_stdio w;
     cin_tied := cin_tied w |}.

(** [freopen(path, mode, stdout)] *)
Definition freopen_stdout (path mode : string) (w : world) : world :=
  {| stdin_target := stdin_target w;
     stdout_target := File path mode;
     cin_pending := cin_pending w;
     cout_written := cout_written w;
     cerr_written := cerr_written w;
     sync_with_stdio := sync_with_stdio w;
     cin_tied := cin_tied w |}.

(** [ios_base::sync_with_stdio(false); cin.tie(nullptr);] *)
Definition unsync_untie (w : world) : world :=
  {| stdin_target := stdin_target w;
     stdout_target := stdout_target w;
     cin_pending := cin_pending w;
     cout_written := cout_written w;
     cerr_written := cerr_written w;
     sync_with_stdio := false;
     cin_tied := false |}.

(** [cerr << s] *)
Definition cerr_write (s : string) (w : world) : world :=
  {| stdin_target := stdin_target w;
     stdout_target := stdout_target w;
     cin_pending := cin_pending w;
     cout_written := cout_written w;
     cerr_written := cerr_written w ++ s;
     sync_with_stdio := sync_with_stdio w;
     cin_tied := cin_tied w |}.

(** [void solve(){ }] *)
Definition solve (w : world) : world := w.

(** [duration_cast<chrono::milliseconds>(end-start).count()]: the cast
    truncates towards zero. *)
Definition elapsed_ms (e : env) : Z :=
  Z.quot (clock_end e - clock_start e) 1000000.

(** [int main()], with the build flag as a parameter: the two
    [#ifndef ONLINE_JUDGE] blocks are compiled when it is [false]. *)
Definition main (ONLINE_JUDGE : bool) (e : env) (w : world) : world :=
  let w :=
    if ONLINE_JUDGE then w
    else freopen_stdout "output.txt" "w" (freopen_stdin "input.txt" "r" e w) in
  let w := unsync_untie w in
  let w := solve w in
  if ONLINE_JUDGE then w
  else
    let w := cerr_write endl w in
    let w := cerr_write "Time: " w in
    let w := cerr_write (dec (elapsed_ms e)) w in
    let w := cerr_write "ms" w in
    cerr_write endl w.

(** The line [main] reports the running time with. *)
Definition timing_line (ms : Z) : string :=
  endl ++ "Time: " ++ dec ms ++ "ms" ++ endl.

(** The world of a process that has just started, with [input] waiting on
    its standard input. *)
Definition process_start (input : string) : world :=
  {| stdin_target := Inherited;
     stdout_target := Inherited;
     cin_pending := input;
     cout_written := EmptyString;
     cerr_written := EmptyString;
     sync_with_stdio := true;
     cin_tied := true |}.

End Program.

(** ** [print1] and the variadic [print] *)

Module Printing.
Import Bits Text Output.
Local Open Scope string_scope.

Section Print.
Variable T : Type.
Variable show : T -> string.

(** [template<typename T>
     void print1(vec<T> v){FOR(i, 1, sz(v)) cout << v[i] << " \n"[i==sz(v)-1];}] *)
Definition print1 (v : list T) (cout : string) : option string :=
  FOR 1 (sz T v) (print_step T show v) cout.

(** The last argument of a call [print(a, ..., z)]: a value written with
    [cout << z << endl], or a vector, for which the call [print(args...)]
    on the one remaining argument selects the overload on [vec<T>]. *)
Inductive last_arg : Type :=
| LastValue (a : T)
| LastVector (v : list T).

(** [template<typename T> void print(T a){cout << a << endl;}] and
    [template<typename T, typename... Args>
     void print(T a, Args... args){cout << a << spc; print(args...);}]:
    [args] are the arguments before the last. *)
Fixpoint print_args (args : list T) (last : last_arg) (cout : string)
    : option string :=
  match args with
  | [] =>
      match last with
      | LastValue a => Some ((cout ++ show a) ++ endl)
      | LastVector v => print T show v cout
      end
  | a :: rest => print_args rest last ((cout ++ show a) ++ spc)
  end.

(** Every value followed by one space. *)
Fixpoint spaced_prefix (args : list T) : string :=
  match args with
  | [] => EmptyString
  | a :: rest => show a ++ spc ++ spaced_prefix rest
  end.
End Print.

End Printing.

(** ** [readvec] and [readvec1] *)

Module Vectors.
Import Bits Output Input.

(** [l] with the element at index [n] replaced. *)
Fixpoint set_nth {A : Type} (n : nat) (x : A) (l : list A) : list A :=
  match l, n with
  | [], _ => []
  | _ :: r, O => x :: r
  | y :: r, S k => y :: set_nth k x r
  end.

Section ReadVec.
(** The stream, the element type and [cin >> x] as in [read]; [default]
    is the value-initialised element [T()] that [resize] appends. *)
Variable istream : Type.
Variable cell : Type.
Variable extract : istream -> cell -> istream * cell.
Variable default : cell.

(** The content of [v] after [v.resize(n)] for [0 <= n]: the first [n]
    elements, filled up with [T()]. *)
Definition resized (v : list cell) (n : Z) : list cell :=
  firstn (Z.to_nat n) v ++ repeat default (Z.to_nat n - List.length v).

(** [v.resize(n)] with an [int] argument: a negative [n] turns into a
    size above [max_size()] and the call throws [length_error]. *)
Definition resize (v : list cell) (n : Z) : option (list cell) :=
  if n <? 0 then None else Some (resized v n).

(** [cin >> v[i];] *)
Definition readvec_step (i : Z) (st : istream * list cell)
    : option (istream * list cell) :=
  let (cin, v) := st in
  match at_index cell v i with
  | Some x =>
      let (cin, x') := extract cin x in
      Some (cin, set_nth (Z.to_nat i) x' v)
  | None => None
  end.

(** [template<typename T>
     void readvec(vec<T> &v, int n){v.resize(n); FOR(i, 0, n) cin >> v[i];}] *)
Definition readvec (cin : istream) (v : list cell) (n : Z)
    : option (istream * list cell) :=
  match resize v n with
  | Some v => FOR 0 n readvec_step (cin, v)
  | None => None
  end.

(** [template<typename T>
     void readvec1(vec<T> &v, int n){v.resize(n+1); FOR(i, 1, n+1) cin >> v[i];}]
    [n+1] is undefined at the largest [int]. *)
Definition readvec1 (cin : istream) (v : list cell) (n : Z)
    : option (istream * list cell) :=
  if n =? 2147483647 then None
  else
    match resize v (n + 1) with
    | Some v => FOR 1 (n + 1) readvec_step (cin, v)
    | None => None
    end.
End ReadVec.

End Vectors.

(** ** What the debug printer is compared with *)

Module DebugText.
Import Bits Text Debug.
Local Open Scope string_scope.

(** The text [_cerr] writes for a value on an empty stream. *)
Definition rendering (b : bool) (x : dval) : string := _cerr x b EmptyString.

(** The lines [name = value] of the values [args] under the names
    [names], one after the other; [b] asks for the binary form. *)
Fixpoint labelled (b : bool) (names : list string) (args : list dval)
    : string :=
  match names, args with
  | n :: names', a :: args' =>
      n ++ " = " ++ rendering b a ++ endl ++ labelled b names' args'
  | _, _ => EmptyString
  end.

(** A stretch between two arguments in the stringified argument list:
    commas and white space only, and not empty. *)
Fixpoint gap_chars (s : string) : bool :=
  match s with
  | EmptyString => true
  | String c r => (Ascii.eqb c "," || is_space c) && gap_chars r
  end.

Definition gap (s : string) : bool :=
  match s with
  | EmptyString => false
  | _ => gap_chars s
  end.

(** No character of [s] is a comma or white space. *)
Fixpoint plain_chars (s : string) : bool :=
  match s with
  | EmptyString => true
  | String c r => negb (Ascii.eqb c ",") && negb (is_space c) && plain_chars r
  end.

(** A name that is one word of the argument text. *)
Definition plain (s : string) : bool :=
  match s with
  | EmptyString => false
  | _ => plain_chars s
  end.

(** The stringified argument list [#args] of a macro call: the first
    argument, and every further argument with the stretch in front of
    it, as written in the call. *)
Fixpoint arg_text (first : string) (more : list (string * string)) : string :=
  match more with
  | [] => first
  | (g, n) :: rest => first ++ g ++ arg_text n rest
  end.

(** The arguments of such a call are plain names. *)
Definition plain_call (first : string) (more : list (string * string)) : bool :=
  plain first && forallb (fun p => gap (fst p) && plain (snd p)) more.

(** The number a string of binary digits denotes, highest digit first. *)
Fixpoint bin_value_from (acc : Z) (s : string) : Z :=
  match s with
  | EmptyString => acc
  | String c r => bin_value_from (2 * acc + (if Ascii.eqb c "1" then 1 else 0)) r
  end.

Definition bin_value (s : string) : Z := bin_value_from 0 s.

(** The bits of [bitset<n>(x)] in index order. *)
Definition bits_by_index (n : nat) (x : Z) : list bool :=
  map (fun i => Z.testbit x (Z.of_nat i)) (seq 0 n).

(** A string read backwards. *)
Fixpoint string_rev (s : string) : string :=
  match s with
  | EmptyString => EmptyString
  | String c r => string_rev r ++ String c EmptyString
  end.

End DebugText.

(** ** [custom_hash] *)

Module Hashing.
Import Bits.

(** [__builtin_bswap64]: the eight bytes of a 64-bit value in reverse
    order. *)
Definition bswap64 (x : Z) : Z :=
  LittleEndianList.le_combine (rev (LittleEndianList.le_split 8 x)).

(** [struct custom_hash]: the two constants of an instance.  [C] is
    initialised with [uint64_t(4e18 * acos(0)) + 71] and [RANDOM] with the
    low 32 bits of a reading of [steady_clock]. *)
Record custom_hash : Type := { C : Z; RANDOM : Z }.

(** [size_t operator()(uint64_t x) const
     { return __builtin_bswap64((x^RANDOM)*C); }]
    [RANDOM] is widened to 64 bits for the [^]; the product wraps at 64
    bits. *)
Definition hash (h : custom_hash) (x : Z) : Z :=
  bswap64 ((Z.lxor x (RANDOM h) * C h) mod 2 ^ 64).

(** The value of the initialiser of [C] in IEEE double arithmetic: the
    product is the double 6283185307179586560. *)
Definition C_value : Z := 6283185307179586560 + 71.

End Hashing.

(** ** [popcount] and [parity] *)

Module Builtins.
Import Bits.

(** The number of 1-bits among the [w] low bits of [u]: what
    [__builtin_popcount] (32 bits) and [__builtin_popcountll] (64 bits)
    return. *)
Fixpoint ones (w : nat) (u : Z) : Z :=
  match w with
  | O => 0
  | S k => Z.b2z (Z.testbit u (Z.of_nat k)) + ones k u
  end.

(** [int popcount(int x) {return __builtin_popcount(x);}]: the argument
    is converted to [unsigned int]. *)
Definition popcount_int (x : Z) : Z := ones 32 (x mod 2 ^ 32).

(** [int popcount(ll x) {return __builtin_popcountll(x);}] *)
Definition popcount_ll (x : Z) : Z := ones 64 (x mod 2 ^ 64).

(** [int parity(int x) {return __builtin_parity(x);}]: the number of
    1-bits modulo 2. *)
Definition parity_int (x : Z) : Z := ones 32 (x mod 2 ^ 32) mod 2.

(** [int parity(ll x) {return __builtin_parityll(x);}] *)
Definition parity_ll (x : Z) : Z := ones 64 (x mod 2 ^ 64) mod 2.

(** Overload resolution on the type of the argument. *)
Definition popcount (t : ity) : Z -> Z :=
  match t with TInt => popcount_int | TLL => popcount_ll end.
Definition parity (t : ity) : Z -> Z :=
  match t with TInt => parity_int | TLL => parity_ll end.

End Builtins.

(** ** Facts about the conversions *)

Module BitsFacts.
Import Bits.

Lemma width_pos (t : ity) : 0 < width t.
Proof. destruct t; simpl; lia. Qed.

Lemma width_le_64 (t : ity) : width t <= 64.
Proof. destruct t; simpl; lia. Qed.

Lemma to_signed_mod (w x : Z) :
  0 < w -> to_signed w x mod 2 ^ w = x mod 2 ^ w.
Proof.
  intros Hw. unfold to_signed.
  rewrite Zminus_mod_idemp_l.
  f_equal. lia.
Qed.

Lemma to_signed_range (w x : Z) : 0 < w -> in_signed w (to_signed w x).
Proof.
  intros Hw. unfold in_signed, to_signed.
  assert (H2 : 2 ^ w = 2 * 2 ^ (w - 1)).
  { replace w with (Z.succ (w - 1)) at 1 by lia. apply Z.pow_succ_r. lia. }
  assert (Hp : 0 < 2 ^ (w - 1)) by (apply Z.pow_pos_nonneg; lia).
  pose proof (Z.mod_pos_bound (x + 2 ^ (w - 1)) (2 ^ w) ltac:(lia)). lia.
Qed.

Lemma to_signed_testbit (w x i : Z) :
  0 <= i < w -> Z.testbit (to_signed w x) i = Z.testbit x i.
Proof.
  intros Hi.
  rewrite <- (Z.mod_pow2_bits_low (to_signed w x) w i) by lia.
  rewrite to_signed_mod by lia.
  apply Z.mod_pow2_bits_low. lia.
Qed.

Lemma to_ull_testbit (x i : Z) :
  0 <= i < 64 -> Z.testbit (to_ull x) i = Z.testbit x i.
Proof. intros Hi. unfold to_ull. apply Z.mod_pow2_bits_low. lia. Qed.

Lemma shl_1ULL_some (b : Z) : 0 <= b < 64 -> shl_1ULL b = Some (2 ^ b).
Proof.
  intros Hb. unfold shl_1ULL.
  replace (0 <=? b) with true by (symmetry; apply Z.leb_le; lia).
  replace (b <? 64) with true by (symmetry; apply Z.ltb_lt; lia).
  simpl. now rewrite Z.shiftl_1_l.
Qed.

Lemma shl_1ULL_inv (b m : Z) :
  shl_1ULL b = Some m -> 0 <= b < 64 /\ m = 2 ^ b.
Proof.
  unfold shl_1ULL. intros H.
  destruct (0 <=? b) eqn:H0; destruct (b <? 64) eqn:H1; simpl in H; try discriminate.
  apply Z.leb_le in H0. apply Z.ltb_lt in H1.
  injection H as <-. now rewrite Z.shiftl_1_l.
Qed.

(** Masking with a single bit leaves that bit or nothing. *)
Lemma land_pow2 (x b : Z) :
  0 <= b -> Z.land x (2 ^ b) = if Z.testbit x b then 2 ^ b else 0.
Proof.
  intros Hb. apply Z.bits_inj'. intros n Hn.
  rewrite Z.land_spec, Z.pow2_bits_eqb by assumption.
  destruct (Z.eqb_spec b n) as [->|Hne].
  - rewrite andb_true_r. destruct (Z.testbit x n) eqn:E.
    + now rewrite Z.pow2_bits_true.
    + now rewrite Z.bits_0.
  - rewrite andb_false_r. destruct (Z.testbit x b).
    + rewrite Z.pow2_bits_false; auto.
    + now rewrite Z.bits_0.
Qed.

Lemma bangbang_land_pow2 (x b : Z) :
  0 <= b -> bangbang (Z.land x (2 ^ b)) = if Z.testbit x b then 1 else 0.
Proof.
  intros Hb. rewrite land_pow2 by assumption. unfold bangbang.
  destruct (Z.testbit x b); [|reflexivity].
  assert (0 < 2 ^ b) by (apply Z.pow_pos_nonneg; lia).
  destruct (Z.eqb_spec (2 ^ b) 0); [lia|reflexivity].
Qed.

(** [checkBit] reads bit [b] of its (sign-extended) first argument. *)
Lemma checkBit_testbit (t : ity) (a b : Z) :
  0 <= b < 64 ->
  checkBit t a b = Some (if Z.testbit a b then 1 else 0).
Proof.
  intros Hb.
  assert (E : checkBit t a b = checkBit_int a b) by (destruct t; reflexivity).
  rewrite E. unfold checkBit_int. rewrite shl_1ULL_some by assumption.
  rewrite bangbang_land_pow2 by lia.
  now rewrite to_ull_testbit.
Qed.

Lemma not_ull_pow2_testbit (b i : Z) :
  0 <= b -> 0 <= i < 64 ->
  Z.testbit (not_ull (2 ^ b)) i = negb (b =? i).
Proof.
  intros Hb Hi. unfold not_ull.
  rewrite to_ull_testbit by assumption.
  rewrite Z.lnot_spec by lia.
  now rewrite Z.pow2_bits_eqb.
Qed.

Lemma conv_testbit (t : ity) (x i : Z) :
  0 <= i < width t -> Z.testbit (conv t x) i = Z.testbit x i.
Proof. destruct t; simpl; intros; apply to_signed_testbit; assumption. Qed.

Lemma conv_range (t : ity) (x : Z) : in_range t (conv t x).
Proof. unfold in_range. destruct t; apply to_signed_range; simpl; lia. Qed.

Lemma setBit_eq (t : ity) (a b : Z) :
  0 <= b < 64 -> setBit t a b = Some (Z.lor a (conv t (2 ^ b))).
Proof.
  intros Hb. destruct t; simpl; unfold setBit_int, setBit_ll;
    now rewrite shl_1ULL_some.
Qed.

Lemma clearBit_eq (t : ity) (a b : Z) :
  0 <= b < 64 -> clearBit t a b = Some (Z.land a (conv t (not_ull (2 ^ b)))).
Proof.
  intros Hb. destruct t; simpl; unfold clearBit_int, clearBit_ll;
    now rewrite shl_1ULL_some.
Qed.

Lemma toggleBit_eq (t : ity) (a b : Z) :
  0 <= b < 64 -> toggleBit t a b = Some (Z.lxor a (conv t (2 ^ b))).
Proof.
  intros Hb. destruct t; simpl; unfold toggleBit_int, toggleBit_ll;
    now rewrite shl_1ULL_some.
Qed.

Lemma to_signed_small (w x : Z) :
  0 < w -> in_signed w x -> to_signed w x = x.
Proof.
  intros Hw [Hlo Hhi]. unfold to_signed.
  assert (H2 : 2 ^ w = 2 * 2 ^ (w - 1)).
  { replace w with (Z.succ (w - 1)) at 1 by lia. apply Z.pow_succ_r. lia. }
  rewrite Z.mod_small by lia. lia.
Qed.

Lemma to_signed_le (w x : Z) : 0 < w -> 0 <= x -> to_signed w x <= x.
Proof.
  intros Hw Hx. unfold to_signed.
  assert (Hp : 0 < 2 ^ (w - 1)) by (apply Z.pow_pos_nonneg; lia).
  assert (Hq : 0 < 2 ^ w) by (apply Z.pow_pos_nonneg; lia).
  pose proof (Z.mod_le (x + 2 ^ (w - 1)) (2 ^ w) ltac:(lia) Hq). lia.
Qed.

(** A value fits [w] bits exactly when everything from bit [w - 1] upwards
    is the sign. *)
Lemma in_signed_shiftr (w a : Z) :
  0 < w ->
  in_signed w a <-> (Z.shiftr a (w - 1) = 0 \/ Z.shiftr a (w - 1) = -1).
Proof.
  intros Hw. unfold in_signed. rewrite Z.shiftr_div_pow2 by lia.
  assert (Hp : 0 < 2 ^ (w - 1)) by (apply Z.pow_pos_nonneg; lia).
  generalize dependent (2 ^ (w - 1)). intros p Hp.
  pose proof (Z.div_mod a p ltac:(lia)) as E.
  pose proof (Z.mod_pos_bound a p Hp) as B.
  split.
  - intros [Hlo Hhi]. assert (-1 <= a / p <= 0) by nia. lia.
  - intros [H|H]; rewrite H in E; lia.
Qed.

Lemma bitop_in_signed (op : Z -> Z -> Z) (w a b : Z) :
  (forall x y n, 0 <= n ->
     Z.shiftr (op x y) n = op (Z.shiftr x n) (Z.shiftr y n)) ->
  (forall x y, x = 0 \/ x = -1 -> y = 0 \/ y = -1 ->
     op x y = 0 \/ op x y = -1) ->
  0 < w -> in_signed w a -> in_signed w b -> in_signed w (op a b).
Proof.
  intros Hshift Hsign Hw Ha Hb.
  apply in_signed_shiftr in Ha; [|assumption].
  apply in_signed_shiftr in Hb; [|assumption].
  apply in_signed_shiftr; [assumption|].
  rewrite Hshift by lia. now apply Hsign.
Qed.

Lemma lor_in_signed (w a b : Z) :
  0 < w -> in_signed w a -> in_signed w b -> in_signed w (Z.lor a b).
Proof.
  apply bitop_in_signed.
  - intros x y n _. apply Z.shiftr_lor.
  - intros x y [->| ->] [->| ->]; simpl; auto.
Qed.

Lemma land_in_signed (w a b : Z) :
  0 < w -> in_signed w a -> in_signed w b -> in_signed w (Z.land a b).
Proof.
  apply bitop_in_signed.
  - intros x y n _. apply Z.shiftr_land.
  - intros x y [->| ->] [->| ->]; simpl; auto.
Qed.

Lemma lxor_in_signed (w a b : Z) :
  0 < w -> in_signed w a -> in_signed w b -> in_signed w (Z.lxor a b).
Proof.
  apply bitop_in_signed.
  - intros x y n _. apply Z.shiftr_lxor.
  - intros x y [->| ->] [->| ->]; simpl; auto.
Qed.

(** The three mutators keep the variable inside its type, so [|=], [&=]
    and [^=] need no conversion of their result. *)
Lemma setBit_in_range (t : ity) (a b a' : Z) :
  in_range t a -> setBit t a b = Some a' -> in_range t a'.
Proof.
  intros Ha H.
  assert (Hb : 0 <= b < 64).
  { destruct t; simpl in H; unfold setBit_int, setBit_ll in H;
      destruct (shl_1ULL b) eqn:E; try discriminate;
      now apply shl_1ULL_inv in E. }
  rewrite setBit_eq in H by assumption. injection H as <-.
  apply lor_in_signed; [apply width_pos | assumption | apply conv_range].
Qed.

Lemma clearBit_in_range (t : ity) (a b a' : Z) :
  in_range t a -> clearBit t a b = Some a' -> in_range t a'.
Proof.
  intros Ha H.
  assert (Hb : 0 <= b < 64).
  { destruct t; simpl in H; unfold clearBit_int, clearBit_ll in H;
      destruct (shl_1ULL b) eqn:E; try discriminate;
      now apply shl_1ULL_inv in E. }
  rewrite clearBit_eq in H by assumption. injection H as <-.
  apply land_in_signed; [apply width_pos | assumption | apply conv_range].
Qed.

Lemma toggleBit_in_range (t : ity) (a b a' : Z) :
  in_range t a -> toggleBit t a b = Some a' -> in_range t a'.
Proof.
  intros Ha H.
  assert (Hb : 0 <= b < 64).
  { destruct t; simpl in H; unfold toggleBit_int, toggleBit_ll in H;
      destruct (shl_1ULL b) eqn:E; try discriminate;
      now apply shl_1ULL_inv in E. }
  rewrite toggleBit_eq in H by assumption. injection H as <-.
  apply lxor_in_signed; [apply width_pos | assumption | apply conv_range].
Qed.

End BitsFacts.

(** ** Facts about character streams *)

Module TextFacts.
Import Text.
Local Open Scope string_scope.

Lemma append_assoc (a b c : string) : (a ++ b) ++ c = a ++ (b ++ c).
Proof. induction a as [|ch a IH]; simpl; [reflexivity | now rewrite IH]. Qed.

Lemma append_nil_r (a : string) : a ++ EmptyString = a.
Proof. induction a as [|ch a IH]; simpl; [reflexivity | now rewrite IH]. Qed.

Lemma append_length (a b : string) :
  String.length (a ++ b) = (String.length a + String.length b)%nat.
Proof. induction a as [|ch a IH]; simpl; [reflexivity | now rewrite IH]. Qed.

Lemma append_cancel_l (a b c : string) : a ++ b = a ++ c -> b = c.
Proof.
  induction a as [|ch a IH]; simpl; intros H; [assumption|].
  injection H as H. auto.
Qed.

Lemma append_endl_nonempty (a : string) : a ++ endl <> EmptyString.
Proof. destruct a; simpl; discriminate. Qed.

End TextFacts.

(** ** Facts about [print] *)

Module OutputFacts.
Import Bits BitsFacts Text TextFacts Output.
Local Open Scope string_scope.

Section Print.
Variable T : Type.
Variable show : T -> string.

Local Abbreviation sz := (sz T).
Local Abbreviation print := (print T show).
Local Abbreviation print_step := (print_step T show).
Local Abbreviation spaced_line := (spaced_line T show).

Lemma sz_fits (v : list T) :
  (Z.of_nat (List.length v) < 2 ^ 31)%Z -> sz v = Z.of_nat (List.length v).
Proof.
  intros H. unfold Output.sz, to_int. apply to_signed_small; [lia|].
  unfold in_signed. simpl (32 - 1)%Z. lia.
Qed.

Lemma sz_le_length (v : list T) : (sz v <= Z.of_nat (List.length v))%Z.
Proof. unfold Output.sz, to_int. apply to_signed_le; lia. Qed.

Lemma spaced_line_cons2 (x y : T) (r : list T) :
  spaced_line (x :: y :: r) = show x ++ spc ++ spaced_line (y :: r).
Proof. reflexivity. Qed.

(** The line of a non-empty vector ends with the newline. *)
Lemma spaced_line_ends (v : list T) :
  v <> [] -> exists s, spaced_line v = s ++ endl.
Proof.
  induction v as [|x [|y r] IH]; intros Hne.
  - contradiction.
  - exists (show x). reflexivity.
  - destruct IH as [s Hs]; [discriminate|].
    exists (show x ++ spc ++ s).
    rewrite spaced_line_cons2, Hs. now rewrite !append_assoc.
Qed.

Lemma spaced_line_nonempty (v : list T) :
  v <> [] -> spaced_line v <> EmptyString.
Proof.
  intros Hne. destruct (spaced_line_ends v Hne) as [s ->].
  apply append_endl_nonempty.
Qed.

(** The loop invariant: with [pre] already written, the next
    [length suf] iterations write the line of [suf], provided the loop
    bound [sz v] falls at the end of [suf]. *)
Lemma iterate_print_step (suf : list T) :
  forall (pre tail v : list T) (out : string),
    v = (pre ++ suf ++ tail)%list ->
    sz v = Z.of_nat (List.length pre + List.length suf) ->
    iterate (print_step v) (Z.of_nat (List.length pre)) (List.length suf) out
    = Some (out ++ spaced_line suf).
Proof.
  induction suf as [|x suf IH]; intros pre tail v out Hv Hsz.
  - simpl. now rewrite append_nil_r.
  - cbn [iterate List.length].
    assert (Hat : at_index T v (Z.of_nat (List.length pre)) = Some x).
    { unfold at_index.
      replace (Z.of_nat (List.length pre) <? 0)%Z with false
        by (symmetry; apply Z.ltb_ge; lia).
      rewrite Nat2Z.id, Hv, nth_error_app2 by lia.
      now rewrite Nat.sub_diag. }
    unfold Output.print_step at 1. rewrite Hat.
    unfold separator. rewrite Hsz.
    assert (Hnext : (Z.of_nat (List.length pre) + 1)%Z
                    = Z.of_nat (List.length (pre ++ [x])%list)).
    { rewrite length_app. simpl. lia. }
    destruct suf as [|y r].
    + replace (Z.of_nat (List.length pre)
               =? Z.of_nat (List.length pre + List.length [x]) - 1)%Z
        with true by (symmetry; apply Z.eqb_eq; simpl; lia).
      reflexivity.
    + replace (Z.of_nat (List.length pre)
               =? Z.of_nat (List.length pre + List.length (x :: y :: r)) - 1)%Z
        with false by (symmetry; apply Z.eqb_neq; simpl; lia).
      cbn [String.get endl].
      rewrite Hnext.
      rewrite (IH (pre ++ [x])%list tail v).
      * rewrite spaced_line_cons2. now rewrite !append_assoc.
      * rewrite Hv. now rewrite <- app_assoc.
      * rewrite Hsz, length_app. simpl. f_equal. lia.
Qed.

(** What [print] writes on every vector: the line of the first [sz v]
    elements, nothing when [sz v] is not positive. *)
Lemma print_writes (v : list T) (out : string) :
  print v out = Some (out ++ spaced_line (firstn (Z.to_nat (sz v)) v)).
Proof.
  unfold Output.print, FOR. rewrite Z.sub_0_r.
  pose proof (sz_le_length v) as Hle.
  set (n := Z.to_nat (sz v)).
  assert (Hn : (n <= List.length v)%nat) by lia.
  pose proof (firstn_skipn n v) as Hsplit.
  destruct (Z_le_gt_dec (sz v) 0) as [Hneg|Hpos].
  - replace n with 0%nat by lia. simpl. now rewrite append_nil_r.
  - rewrite <- (firstn_length_le v Hn) at 1.
    apply (iterate_print_step (firstn n v) [] (skipn n v) v out).
    + simpl. now rewrite Hsplit.
    + simpl. rewrite (firstn_length_le v Hn). lia.
Qed.

(** With a loop bound that is not positive nothing is written. *)
Lemma print_nothing (v : list T) (out : string) :
  (sz v <= 0)%Z -> print v out = Some out.
Proof.
  intros H. rewrite print_writes.
  replace (Z.to_nat (sz v)) with 0%nat by lia.
  rewrite firstn_O. simpl. now rewrite append_nil_r.
Qed.

Lemma print_nothing_not_line (v : list T) (out : string) :
  (sz v <= 0)%Z -> v <> [] ->
  print v out <> Some (out ++ spaced_line v).
Proof.
  intros H Hne. rewrite print_nothing by exact H.
  intros E. injection E as E.
  rewrite <- (append_nil_r out) in E at 1.
  apply append_cancel_l in E. symmetry in E.
  exact (spaced_line_nonempty v Hne E).
Qed.
End Print.

Lemma huge_length : Z.of_nat (List.length huge) = 2147483648%Z.
Proof. unfold huge. rewrite repeat_length. apply Z2Nat.id. lia. Qed.

Lemma huge_nonempty : huge <> [].
Proof.
  intros H. pose proof huge_length as L. rewrite H in L.
  change (List.length (@nil Z)) with 0%nat in L. lia.
Qed.

Lemma huge_sz : sz Z huge = (-2147483648)%Z.
Proof. unfold sz. rewrite huge_length. reflexivity. Qed.

Lemma huge_sz_le : (sz Z huge <= 0)%Z.
Proof. rewrite huge_sz. lia. Qed.

End OutputFacts.

(** ** Facts about the debug printer *)

Module DebugFacts.
Import Bits Text TextFacts Debug.
Local Open Scope string_scope.

Lemma put_bits_app (bits : list bool) :
  forall cerr, put_bits bits cerr = cerr ++ put_bits bits EmptyString.
Proof.
  induction bits as [|x r IH]; intros cerr; simpl.
  - now rewrite append_nil_r.
  - rewrite IH, (IH (if x then "1" else "0")). now rewrite append_assoc.
Qed.

(** The loop inside the container overload is [each_elem]. *)
Lemma container_loop (b : bool) (l : list dval) (cerr : string) :
  _cerr (DContainer l) b cerr = each_elem b l 0 (cerr ++ "{") ++ "}".
Proof.
  cbn [_cerr]. f_equal.
  generalize (cerr ++ "{") as c. generalize 0%Z at 2 3 as f.
  induction l as [|i r IH]; intros f c; [reflexivity|].
  cbn [each_elem]. apply IH.
Qed.

Lemma each_elem_app (b : bool) (l : list dval) :
  Forall appends l ->
  forall f cerr, each_elem b l f cerr = cerr ++ each_elem b l f EmptyString.
Proof.
  induction 1 as [|i r Hi _ IH]; intros f cerr; cbn [each_elem].
  - now rewrite append_nil_r.
  - rewrite IH. symmetry. rewrite IH. symmetry.
    rewrite (Hi b (cerr ++ _)), (Hi b (EmptyString ++ _)).
    cbn [append]. now rewrite !append_assoc.
Qed.

Lemma _cerr_app (x : dval) : appends x.
Proof.
  induction x using dval_induction.
  - intros b cerr.
    destruct x; try contradiction; cbn [_cerr];
      try (destruct b); unfold toBin;
      cbn [append]; rewrite ?append_assoc; try reflexivity;
      apply put_bits_app.
  - intros b cerr. cbn [_cerr].
    rewrite (IHx2 b (_ ++ ", ")). symmetry. rewrite (IHx2 b (_ ++ ", ")). symmetry.
    rewrite (IHx1 b (cerr ++ "{")), (IHx1 b (EmptyString ++ "{")).
    cbn [append]. now rewrite !append_assoc.
  - intros b cerr. rewrite !container_loop.
    rewrite each_elem_app by assumption. symmetry.
    rewrite each_elem_app by assumption. symmetry.
    cbn [append]. now rewrite !append_assoc.
Qed.

(** [err] and [errbin] write at least the closing newline. *)
Lemma err_writes (args : list dval) :
  forall it cerr, exists s, err false it args cerr = cerr ++ s ++ endl.
Proof.
  induction args as [|a rest IH]; intros it cerr; cbn [err cerr_put].
  - exists EmptyString. reflexivity.
  - destruct (IH (iter_next it)
                 (_cerr a false (cerr ++ current it ++ " = ") ++ endl)) as [s Hs].
    rewrite Hs, (_cerr_app a).
    exists (current it ++ " = " ++ _cerr a false EmptyString ++ endl ++ s).
    now rewrite !append_assoc.
Qed.

Lemma errbin_writes (args : list dval) :
  forall it cerr, exists s, errbin false it args cerr = cerr ++ s ++ endl.
Proof.
  induction args as [|a rest IH]; intros it cerr; cbn [errbin cerr_put].
  - exists EmptyString. reflexivity.
  - destruct (IH (iter_next it)
                 (_cerr a true (cerr ++ current it ++ " = ") ++ endl)) as [s Hs].
    rewrite Hs, (_cerr_app a).
    exists (current it ++ " = " ++ _cerr a true EmptyString ++ endl ++ s).
    now rewrite !append_assoc.
Qed.

End DebugFacts.

(** ** Properties of the bit helpers *)

Module BitsClaims.
Import Bits BitsFacts.

(** C1. For an [int] and a position below 32, or a [long long] and a
    position below 64, [checkBit] on the value left by [clearBit] at the
    same position returns 0. *)
Theorem clearBit_then_checkBit (t : ity) (a b : Z) :
  in_range t a -> 0 <= b < width t ->
  andThen (clearBit t a b) (fun a' => checkBit t a' b) = Some 0.
Proof.
  intros _ Hb. pose proof (width_le_64 t) as Hw.
  rewrite clearBit_eq by lia. simpl.
  rewrite checkBit_testbit by lia.
  rewrite Z.land_spec, conv_testbit by lia.
  rewrite not_ull_pow2_testbit by lia.
  rewrite Z.eqb_refl. simpl. now rewrite andb_false_r.
Qed.

Lemma clearBit_then_checkBit_witness :
  andThen (clearBit TInt (-1) 31) (fun a' => checkBit TInt a' 31) = Some 0
  /\ andThen (clearBit TLL 6 1) (fun a' => checkBit TLL a' 1) = Some 0.
Proof.
  split.
  - apply (clearBit_then_checkBit TInt (-1) 31); unfold in_range, in_signed; simpl; lia.
  - apply (clearBit_then_checkBit TLL 6 1); unfold in_range, in_signed; simpl; lia.
Defined.

(** C2. For an [int] and a position below 32, or a [long long] and a
    position below 64, two calls of [toggleBit] at the same position give
    the variable its first value back. *)
Theorem toggleBit_twice (t : ity) (a b : Z) :
  in_range t a -> 0 <= b < width t ->
  andThen (toggleBit t a b) (fun a' => toggleBit t a' b) = Some a.
Proof.
  intros _ Hb. pose proof (width_le_64 t) as Hw.
  rewrite toggleBit_eq by lia. simpl.
  rewrite toggleBit_eq by lia.
  now rewrite Z.lxor_assoc, Z.lxor_nilpotent, Z.lxor_0_r.
Qed.

Lemma toggleBit_twice_witness :
  andThen (toggleBit TInt 5 31) (fun a' => toggleBit TInt a' 31) = Some 5
  /\ andThen (toggleBit TLL (-7) 63) (fun a' => toggleBit TLL a' 63) = Some (-7).
Proof.
  split.
  - apply (toggleBit_twice TInt 5 31); unfold in_range, in_signed; simpl; lia.
  - apply (toggleBit_twice TLL (-7) 63); unfold in_range, in_signed; simpl; lia.
Defined.

(** C8. For an [int] and a position below 32, or a [long long] and a
    position below 64, [checkBit] on the value left by [setBit] at the same
    position returns 1; and [checkBit] returns 0 or 1 on every argument: it
    has one of the two results at every position from 0 to 63, and no call
    returns anything else. *)
Theorem setBit_then_checkBit (t : ity) (a b : Z) :
  in_range t a -> 0 <= b < width t ->
  andThen (setBit t a b) (fun a' => checkBit t a' b) = Some 1
  /\ (forall x y, 0 <= y < 64 ->
        checkBit t x y = Some 0 \/ checkBit t x y = Some 1)
  /\ (forall x y r, checkBit t x y = Some r -> r = 0 \/ r = 1).
Proof.
  intros _ Hb. pose proof (width_le_64 t) as Hw.
  assert (Hall : forall x y, 0 <= y < 64 ->
            checkBit t x y = Some 0 \/ checkBit t x y = Some 1).
  { intros x y Hy. rewrite checkBit_testbit by assumption.
    destruct (Z.testbit x y); auto. }
  split; [|split].
  - rewrite setBit_eq by lia. simpl.
    rewrite checkBit_testbit by lia.
    rewrite Z.lor_spec, conv_testbit by lia.
    rewrite Z.pow2_bits_true by lia. now rewrite orb_true_r.
  - exact Hall.
  - intros x y r Hr.
    assert (Hy : 0 <= y < 64).
    { destruct t; simpl in Hr; unfold checkBit_int, checkBit_ll in Hr;
        destruct (shl_1ULL y) eqn:E; try discriminate;
        now apply shl_1ULL_inv in E. }
    destruct (Hall x y Hy) as [E|E]; rewrite E in Hr; injection Hr as <-; auto.
Qed.

Example bit_helpers_at_the_sign_bit :
  setBit TInt 0 31 = Some (-2147483648)
  /\ clearBit TInt (-1) 31 = Some 2147483647
  /\ toggleBit TLL 0 63 = Some (-9223372036854775808)
  /\ checkBit TLL (-1) 63 = Some 1
  /\ checkBit TInt 5 1 = Some 0
  /\ setBit TInt 0 64 = None.
Proof. repeat split. Qed.

Lemma setBit_then_checkBit_witness :
  andThen (setBit TInt 0 31) (fun a' => checkBit TInt a' 31) = Some 1
  /\ andThen (setBit TLL 0 63) (fun a' => checkBit TLL a' 63) = Some 1.
Proof.
  split.
  - apply (setBit_then_checkBit TInt 0 31); unfold in_range, in_signed; simpl; lia.
  - apply (setBit_then_checkBit TLL 0 63); unfold in_range, in_signed; simpl; lia.
Defined.

End BitsClaims.

(** ** Properties of [print] *)

Module OutputClaims.
Import Bits BitsFacts Text TextFacts Output OutputFacts.
Local Open Scope string_scope.

(** C3, as [print] has it.  For every non-empty vector of fewer than 2^31
    elements, [print] writes the elements in index order, one space after
    every element but the last and one newline after the last. *)
Theorem print_nonempty_line (T : Type) (show : T -> string)
    (v : list T) (out : string) :
  v <> [] ->
  (Z.of_nat (List.length v) < 2 ^ 31)%Z ->
  print T show v out = Some (out ++ spaced_line T show v).
Proof.
  intros _ Hfit. rewrite print_writes.
  rewrite (sz_fits T v Hfit), Nat2Z.id.
  now rewrite firstn_all.
Qed.

Lemma print_nonempty_line_witness :
  print Z dec [1; -2; 3]%Z EmptyString
  = Some (EmptyString ++ spaced_line Z dec [1; -2; 3]%Z).
Proof.
  apply (print_nonempty_line Z dec [1; -2; 3]%Z EmptyString).
  - discriminate.
  - simpl. lia.
Defined.

Example print_three :
  print Z dec [1; -2; 3]%Z EmptyString = Some ("1 -2 3" ++ endl)
  /\ print Z dec [7]%Z "> " = Some ("> 7" ++ endl).
Proof. split; reflexivity. Qed.

(** C3, as stated, fails on a vector whose size does not fit [int]: with
    2^31 elements [sz(v)] is negative, the loop body never runs and nothing
    is written, where the line of the vector ends with a newline. *)
Lemma print_nonempty_line_counterexample :
  huge <> []
  /\ print Z dec huge EmptyString = Some EmptyString
  /\ print Z dec huge EmptyString
     <> Some (EmptyString ++ spaced_line Z dec huge).
Proof.
  split; [exact huge_nonempty | split].
  - exact (print_nothing Z dec huge EmptyString huge_sz_le).
  - exact (print_nothing_not_line Z dec huge EmptyString
             huge_sz_le huge_nonempty).
Qed.

(** With a loop bound that is not positive [print] writes no newline. *)
Lemma print_nothing_no_newline (T : Type) (show : T -> string)
    (v : list T) (out : string) :
  (sz T v <= 0)%Z ->
  ~ (exists s, print T show v out = Some (out ++ s ++ endl)).
Proof.
  intros Hsz [s H]. rewrite (print_nothing T show v out Hsz) in H.
  injection H as H. rewrite <- (append_nil_r out) in H at 1.
  apply append_cancel_l in H. symmetry in H.
  exact (append_endl_nonempty s H).
Qed.

(** C9, as stated, fails in its contrast: the vector of 2^31 zeros is not
    empty, and [print] writes nothing for it, so no trailing newline. *)
Lemma print_empty_contrast_counterexample :
  huge <> []
  /\ print Z dec huge EmptyString = Some EmptyString
  /\ ~ (exists s, print Z dec huge EmptyString
                  = Some (EmptyString ++ s ++ endl)).
Proof.
  split; [exact huge_nonempty | split].
  - exact (print_nothing Z dec huge EmptyString huge_sz_le).
  - exact (print_nothing_no_newline Z dec huge EmptyString huge_sz_le).
Qed.

(** C9, as [print] has it.  On the empty vector [print] writes nothing,
    so no newline; in contrast, on every non-empty vector of fewer than
    2^31 elements what it writes ends with a newline. *)
Theorem print_empty_writes_nothing (T : Type) (show : T -> string)
    (out : string) :
  print T show [] out = Some out
  /\ (forall v : list T,
        v <> [] ->
        (Z.of_nat (List.length v) < 2 ^ 31)%Z ->
        exists s, print T show v out = Some (out ++ s ++ endl)).
Proof.
  split; [reflexivity|].
  intros v Hne Hfit. rewrite print_writes.
  rewrite (sz_fits T v Hfit), Nat2Z.id, firstn_all.
  destruct (spaced_line_ends T show v Hne) as [s Hs].
  exists s. now rewrite Hs.
Qed.

Lemma print_empty_writes_nothing_witness :
  print Z dec [] "x" = Some "x"
  /\ exists s, print Z dec [4; 5]%Z "x" = Some ("x" ++ s ++ endl).
Proof.
  destruct (print_empty_writes_nothing Z dec "x") as [H0 H1].
  split; [exact H0|].
  apply (H1 [4; 5]%Z); [discriminate | simpl; lia].
Defined.

End OutputClaims.

(** ** Properties of [amin] and [amax] *)

Module MinMaxClaims.
Import Bits MinMax.

Section SameType.
(** One type for the variable and the candidate, ordered by [<]; [>] is
    its converse and the assignment copies. *)
Variable T : Type.
Variable ltb : T -> T -> bool.
Variable gtb : T -> T -> bool.
Hypothesis ltb_asym : forall a b, ltb a b = true -> ltb b a = false.
Hypothesis gtb_ltb : forall a b, gtb a b = ltb b a.

Lemma ltb_irrefl (a : T) : ltb a a = false.
Proof.
  destruct (ltb a a) eqn:E; [|reflexivity].
  now rewrite (ltb_asym a a E) in E.
Qed.

(** C10, as [amin] and [amax] have it.  For [x] and [y] of one type
    ordered by [<], with [>] its converse: after [amin(x, y)] the variable
    holds the minimum of its previous value and [y] and is unchanged
    whenever [y >= x]; after [amax(x, y)] it holds the maximum and is
    unchanged whenever [y <= x]. *)
Theorem amin_amax_same_type (x y : T) :
  minimum_of T ltb (amin_same T ltb x y) x y
  /\ (le T ltb x y -> amin_same T ltb x y = x)
  /\ maximum_of T ltb (amax_same T gtb x y) x y
  /\ (le T ltb y x -> amax_same T gtb x y = x).
Proof.
  unfold minimum_of, maximum_of, le, amin_same, amax_same, amin, amax.
  rewrite gtb_ltb.
  pose proof (ltb_irrefl x) as Hx. pose proof (ltb_irrefl y) as Hy.
  repeat split.
  - destruct (ltb y x); auto.
  - destruct (ltb y x) eqn:E; auto.
  - destruct (ltb y x) eqn:E; auto.
  - intros H. now rewrite H.
  - destruct (ltb x y); auto.
  - destruct (ltb x y) eqn:E; auto.
  - destruct (ltb x y) eqn:E; auto.
  - intros H. now rewrite H.
Qed.
End SameType.

Lemma amin_amax_same_type_witness :
  (minimum_of Z Z.ltb (amin_same Z Z.ltb 5 3) 5 3
   /\ maximum_of Z Z.ltb (amax_same Z Z.gtb 5 3) 5 3
   /\ amax_same Z Z.gtb 5 3 = 5)
  /\ amin_same Z Z.ltb 3 5 = 3.
Proof.
  assert (Hasym : forall a b, Z.ltb a b = true -> Z.ltb b a = false).
  { intros a b H. apply Z.ltb_lt in H. apply Z.ltb_ge. lia. }
  destruct (amin_amax_same_type Z Z.ltb Z.gtb Hasym Z.gtb_ltb 5 3)
    as (Hmin & _ & Hmax & Hkeep).
  destruct (amin_amax_same_type Z Z.ltb Z.gtb Hasym Z.gtb_ltb 3 5)
    as (_ & Hkeep' & _ & _).
  split; [split; [exact Hmin | split; [exact Hmax|]]|].
  - apply Hkeep. reflexivity.
  - apply Hkeep'. reflexivity.
Defined.

(** At [int] the two functions are [Z.min] and [Z.max]. *)
Lemma amin_int_min (x y : Z) : amin_int x y = Z.min x y.
Proof.
  unfold amin_int, amin. destruct (Z.ltb_spec y x); lia.
Qed.

Lemma amax_int_max (x y : Z) : amax_int x y = Z.max x y.
Proof.
  unfold amax_int, amax. rewrite Z.gtb_ltb. destruct (Z.ltb_spec x y); lia.
Qed.

(** With an [int] variable and a [long long] candidate that fits [int]
    the conversion is the identity and the minimum is stored. *)
Lemma amin_int_ll_fits (x y : Z) :
  in_int y -> amin_int_ll x y = Z.min x y.
Proof.
  intros Hy. unfold amin_int_ll, amin, to_int.
  rewrite BitsFacts.to_signed_small by (assumption || lia).
  destruct (Z.ltb_spec y x); lia.
Qed.

(** C10, as stated, fails when the candidate has a wider type than the
    variable: with an [int] variable 0 and the [long long] candidate -2^32
    the comparison holds and the assignment converts the candidate to
    [int], which leaves 0, not the minimum. *)
Lemma amin_amax_counterexample :
  in_int 0 /\ in_ll (-4294967296)
  /\ amin_int_ll 0 (-4294967296) = 0
  /\ Z.min 0 (-4294967296) = -4294967296
  /\ ~ minimum_of Z Z.ltb (amin_int_ll 0 (-4294967296)) 0 (-4294967296).
Proof.
  repeat split; try (unfold in_int, in_ll, in_signed; simpl; lia).
  intros [_ [_ H]]. vm_compute in H. discriminate H.
Qed.

End MinMaxClaims.

(** ** Properties of the debug printer *)

Module DebugClaims.
Import Text TextFacts Debug DebugFacts.
Local Open Scope string_scope.

(** Where the call compiles, the overload on pairs writes an opening
    brace, what [_cerr] writes for the first component, a comma and a
    space, what it writes for the second component, and a closing brace;
    the binary flag is handed on to both components. *)
Lemma _cerr_pair (a c : dval) (b : bool) (cerr : string) :
  _cerr (DPair a c) b cerr
  = cerr ++ "{" ++ _cerr a b EmptyString ++ ", "
         ++ _cerr c b EmptyString ++ "}".
Proof.
  cbn [_cerr].
  rewrite (_cerr_app c), (_cerr_app a).
  now rewrite !append_assoc.
Qed.

Lemma _cerr_call_pair (a c : dval) (b : bool) (cerr : string) :
  resolves (DPair a c) = true ->
  _cerr_call (DPair a c) b cerr
  = Some (cerr ++ "{" ++ _cerr a b EmptyString ++ ", "
               ++ _cerr c b EmptyString ++ "}").
Proof.
  intros H. unfold _cerr_call. rewrite H. now rewrite _cerr_pair.
Qed.

Example _cerr_pair_nested :
  _cerr (DPair (DInt 3) (DPair (DChar "x") (DBool true))) false ">"
  = ">{3, {'x', true}}".
Proof. reflexivity. Qed.

Lemma resolves_pair_of_container (elems : list dval) (c : dval) :
  resolves (DPair (DContainer elems) c) = false
  /\ resolves (DPair c (DContainer elems)) = false.
Proof.
  split; cbn [resolves]; [reflexivity|].
  apply andb_false_r.
Qed.

(** C4.  The code does not do for every pair what the claim says: a pair
    with a vector as a component, [pair<vector<int>,int>] with the value
    [{{1, 2}, 3}], is not rendered, because the overload on pairs is
    declared before the overload on containers and its call on the
    component finds no overload, so the call does not compile.  The
    vector alone and the second component alone are rendered, a pair of
    pairs and a vector of pairs are rendered as the claim says; for no
    container component, first or second, is there a rendering of the
    pair. *)
Theorem _cerr_pair_of_vector_rejected :
  _cerr_call (DContainer [DInt 1; DInt 2]) false EmptyString = Some "{1, 2}"
  /\ _cerr_call (DInt 3) false EmptyString = Some "3"
  /\ _cerr_call (DPair (DContainer [DInt 1; DInt 2]) (DInt 3)) false
       EmptyString = None
  /\ _cerr_call (DPair (DPair (DInt 1) (DInt 2)) (DInt 3)) false EmptyString
     = Some "{{1, 2}, 3}"
  /\ _cerr_call (DContainer [DPair (DInt 1) (DInt 2)]) false EmptyString
     = Some "{{1, 2}}"
  /\ (forall elems c b cerr,
        _cerr_call (DPair (DContainer elems) c) b cerr = None
        /\ _cerr_call (DPair c (DContainer elems)) b cerr = None).
Proof.
  do 5 (split; [reflexivity|]).
  intros elems c b cerr. unfold _cerr_call.
  destruct (resolves_pair_of_container elems c) as [H1 H2].
  now rewrite H1, H2.
Qed.

End DebugClaims.

(** ** Properties of [read] *)

Module InputClaims.
Import Input.

Section Tokens.
(** The stream, the variables and [cin >> x] as in [read]; the tokens a
    stream has ahead and the value a token gives a variable.  On a stream
    with a token ahead the extraction takes that token and stores it. *)
Variable istream : Type.
Variable cell : Type.
Variable extract : istream -> cell -> istream * cell.
Variable token : Type.
Variable pending : istream -> list token.
Variable store : token -> cell -> cell.
Hypothesis extract_token :
  forall s x t ts,
    pending s = t :: ts ->
    pending (fst (extract s x)) = ts /\ snd (extract s x) = store t x.

Local Abbreviation read := (read istream cell extract).

Lemma read_length (args : list cell) :
  forall cin, List.length (snd (read cin args)) = List.length args.
Proof.
  induction args as [|x r IH]; intros cin; simpl; [reflexivity|].
  destruct (extract cin x) as [c1 x'].
  specialize (IH c1). destruct (read c1 r) as [c2 r']. simpl in *. lia.
Qed.

(** The extractions of a call follow one another on the same stream. *)
Lemma read_app (xs ys : list cell) :
  forall cin,
    read cin (xs ++ ys)
    = (fst (read (fst (read cin xs)) ys),
       snd (read cin xs) ++ snd (read (fst (read cin xs)) ys)).
Proof.
  induction xs as [|x r IH]; intros cin; simpl.
  - now destruct (read cin ys).
  - destruct (extract cin x) as [c1 x'].
    rewrite IH. destruct (read c1 r) as [c2 r']. reflexivity.
Qed.

Lemma read_tokens (args : list cell) :
  forall cin toks rest,
    pending cin = toks ++ rest ->
    List.length toks = List.length args ->
    pending (fst (read cin args)) = rest
    /\ snd (read cin args) = stored store toks args.
Proof.
  induction args as [|x r IH]; intros cin toks rest Hp Hlen.
  - destruct toks; [|discriminate]. simpl in *. auto.
  - destruct toks as [|t toks]; [discriminate|].
    simpl in Hp, Hlen. injection Hlen as Hlen.
    destruct (extract_token cin x t (toks ++ rest) Hp) as [H1 H2].
    simpl. destruct (extract cin x) as [c1 x']. simpl in H1, H2.
    destruct (IH c1 toks rest H1 Hlen) as [H3 H4].
    destruct (read c1 r) as [c2 r']. simpl in *.
    split; [assumption|]. unfold stored. simpl. now rewrite H2, H4.
Qed.

(** C7.  A call of [read] on n variables, with n tokens ahead in the
    stream, makes one extraction per variable, takes exactly those n
    tokens and gives the i-th token to the i-th argument. *)
Theorem read_left_to_right (args : list cell) (cin : istream)
    (toks rest : list token) :
  pending cin = toks ++ rest ->
  List.length toks = List.length args ->
  pending (fst (read cin args)) = rest
  /\ List.length (snd (read cin args)) = List.length args
  /\ forall i t x,
       nth_error toks i = Some t ->
       nth_error args i = Some x ->
       nth_error (snd (read cin args)) i = Some (store t x).
Proof.
  intros Hp Hlen.
  destruct (read_tokens args cin toks rest Hp Hlen) as [H1 H2].
  split; [assumption | split; [apply read_length|]].
  intros i t x Ht Hx. rewrite H2. unfold stored.
  clear - Ht Hx. revert toks args Ht Hx.
  induction i as [|i IH]; intros [|t' toks] [|x' args] Ht Hx;
    simpl in *; try discriminate.
  - injection Ht as ->. injection Hx as ->. reflexivity.
  - now apply IH.
Qed.
End Tokens.

Lemma read_left_to_right_witness :
  let cin := {| pending_words := ["a"; "b"; "c"]%string; failed := false |} in
  let args := ["x"; "y"]%string in
  let r := read word_stream string extract_word cin args in
  visible_words (fst r) = ["c"]%string
  /\ List.length (snd r) = List.length args
  /\ forall i t x,
       nth_error ["a"; "b"]%string i = Some t ->
       nth_error args i = Some x ->
       nth_error (snd r) i = Some t.
Proof.
  apply (read_left_to_right word_stream string extract_word string
           visible_words (fun t _ => t)).
  - intros s x t ts H. unfold visible_words, extract_word in *.
    destruct (failed s); [discriminate|]. rewrite H. simpl. auto.
  - reflexivity.
  - reflexivity.
Defined.

End InputClaims.

(** ** Properties of [solve] and [main] *)

Module ProgramClaims.
Import Text TextFacts Debug DebugFacts Program.
Local Open Scope string_scope.

(** C6.  [solve] leaves the world as it found it: the input not yet read,
    the text written to standard output and to the error stream, and every
    other component. *)
Theorem solve_changes_nothing (w : world) :
  solve w = w
  /\ cin_pending (solve w) = cin_pending w
  /\ cout_written (solve w) = cout_written w
  /\ cerr_written (solve w) = cerr_written w.
Proof. unfold solve. repeat split. Qed.

(** C5.  With the flag, [main] leaves standard input and output attached
    where the process found them, the macros [debug] and [debugbin] write
    nothing and [main] writes nothing to the error stream.  Without it,
    [main] directs standard input to [input.txt] and standard output to
    [output.txt], the macros write to the error stream (at least a
    newline), and [main] writes the timing line to the error stream. *)
Theorem judge_flag_toggles (e : env) (w : world)
    (text : string) (args : list dval) (cerr : string) :
  (stdin_target (main true e w) = stdin_target w
   /\ stdout_target (main true e w) = stdout_target w
   /\ cin_pending (main true e w) = cin_pending w
   /\ debug true text args cerr = cerr
   /\ debugbin true text args cerr = cerr
   /\ cerr_written (main true e w) = cerr_written w)
  /\
  (stdin_target (main false e w) = File "input.txt" "r"
   /\ stdout_target (main false e w) = File "output.txt" "w"
   /\ cin_pending (main false e w) = file_content e "input.txt"
   /\ (exists s, debug false text args cerr = cerr ++ s ++ endl)
   /\ (exists s, debugbin false text args cerr = cerr ++ s ++ endl)
   /\ cerr_written (main false e w)
      = cerr_written w ++ timing_line (elapsed_ms e)).
Proof.
  split.
  - repeat split.
  - repeat split.
    + apply err_writes.
    + apply errbin_writes.
    + unfold main, solve, timing_line. cbn [cerr_write cerr_written
        unsync_untie freopen_stdout freopen_stdin].
      now rewrite !append_assoc.
Qed.

Example debug_two_values :
  debug false "x, v" [DInt 5; DContainer [DInt 1; DInt 2]] EmptyString
  = "x = 5" ++ endl ++ "v = {1, 2}" ++ endl ++ endl
  /\ debug true "x, v" [DInt 5; DContainer [DInt 1; DInt 2]] EmptyString
     = EmptyString
  /\ debugbin false "c" [DBool true] EmptyString
     = "c = true[00000001]" ++ endl ++ endl.
Proof. repeat split. Qed.

Example main_at_process_start :
  let e := {| file_content := fun _ => "7"; clock_start := 5;
              clock_end := 12999999 |} in
  stdin_target (main true e (process_start "1 2")) = Inherited
  /\ cerr_written (main true e (process_start "1 2")) = EmptyString
  /\ cerr_written (main false e (process_start "1 2"))
     = endl ++ "Time: 12ms" ++ endl.
Proof. repeat split. Qed.

End ProgramClaims.

(** ** Further laws of the bit helpers *)

Module BitsLaws.
Import Bits BitsFacts.

(** Two values of a signed type that agree modulo [2^w] are equal. *)
Lemma signed_unique (w a b : Z) :
  0 < w -> in_signed w a -> in_signed w b ->
  a mod 2 ^ w = b mod 2 ^ w -> a = b.
Proof.
  intros Hw Ha Hb E.
  rewrite <- (to_signed_small w a), <- (to_signed_small w b) by assumption.
  unfold to_signed.
  rewrite <- (Zplus_mod_idemp_l a), <- (Zplus_mod_idemp_l b), E.
  reflexivity.
Qed.

Lemma lnot_in_signed (w a : Z) : in_signed w a -> in_signed w (Z.lnot a).
Proof. unfold in_signed, Z.lnot. lia. Qed.

(** The mask of [clearBit] is the complement of the mask of [setBit],
    also at the sign position. *)
Lemma conv_not_ull (t : ity) (b : Z) :
  0 <= b < width t ->
  conv t (not_ull (2 ^ b)) = Z.lnot (conv t (2 ^ b)).
Proof.
  intros Hb. pose proof (width_pos t) as Hw. pose proof (width_le_64 t) as Hw'.
  apply (signed_unique (width t)); try assumption.
  - apply conv_range.
  - apply lnot_in_signed, conv_range.
  - apply Z.bits_inj'. intros i Hi.
    destruct (Z_lt_ge_dec i (width t)) as [Hlt|Hge].
    + rewrite !Z.mod_pow2_bits_low by lia.
      rewrite conv_testbit, not_ull_pow2_testbit by lia.
      rewrite Z.lnot_spec, conv_testbit by lia.
      now rewrite Z.pow2_bits_eqb by lia.
    + now rewrite !Z.mod_pow2_bits_high by lia.
Qed.

Lemma conv_pow2_testbit (t : ity) (b i : Z) :
  0 <= b -> 0 <= i < width t ->
  Z.testbit (conv t (2 ^ b)) i = (b =? i).
Proof.
  intros Hb Hi. rewrite conv_testbit by assumption.
  now apply Z.pow2_bits_eqb.
Qed.

(** X1.  [setBit], [clearBit] and [toggleBit] at position [b] leave what
    [checkBit] returns at every other position of the type as it was. *)
Theorem mutators_keep_other_bits (t : ity) (a b b' : Z) :
  in_range t a -> 0 <= b < width t -> 0 <= b' < width t -> b <> b' ->
  andThen (setBit t a b) (fun a' => checkBit t a' b') = checkBit t a b'
  /\ andThen (clearBit t a b) (fun a' => checkBit t a' b') = checkBit t a b'
  /\ andThen (toggleBit t a b) (fun a' => checkBit t a' b') = checkBit t a b'.
Proof.
  intros _ Hb Hb' Hne. pose proof (width_le_64 t) as Hw.
  assert (Hm : Z.testbit (conv t (2 ^ b)) b' = false).
  { rewrite conv_pow2_testbit by lia. now apply Z.eqb_neq. }
  rewrite setBit_eq, clearBit_eq, toggleBit_eq by lia. simpl.
  rewrite !checkBit_testbit by lia.
  rewrite conv_not_ull by lia.
  rewrite Z.lor_spec, Z.land_spec, Z.lxor_spec, Z.lnot_spec, Hm by lia.
  simpl. now rewrite orb_false_r, andb_true_r, xorb_false_r.
Qed.

Lemma mutators_keep_other_bits_witness :
  andThen (setBit TInt 5 31) (fun a' => checkBit TInt a' 2) = checkBit TInt 5 2
  /\ andThen (clearBit TInt 5 31) (fun a' => checkBit TInt a' 2)
     = checkBit TInt 5 2
  /\ andThen (toggleBit TInt 5 31) (fun a' => checkBit TInt a' 2)
     = checkBit TInt 5 2.
Proof.
  apply (mutators_keep_other_bits TInt 5 31 2);
    unfold in_range, in_signed; simpl; lia.
Defined.

(** X2.  [toggleBit] turns the answer of [checkBit] at its position
    around: 0 becomes 1 and 1 becomes 0. *)
Theorem toggleBit_flips_checkBit (t : ity) (a b r : Z) :
  in_range t a -> 0 <= b < width t ->
  checkBit t a b = Some r ->
  andThen (toggleBit t a b) (fun a' => checkBit t a' b) = Some (1 - r).
Proof.
  intros _ Hb Hr. pose proof (width_le_64 t) as Hw.
  rewrite checkBit_testbit in Hr by lia. injection Hr as <-.
  rewrite toggleBit_eq by lia. simpl.
  rewrite checkBit_testbit by lia.
  rewrite Z.lxor_spec, conv_pow2_testbit, Z.eqb_refl by lia.
  now destruct (Z.testbit a b).
Qed.

Lemma toggleBit_flips_checkBit_witness :
  andThen (toggleBit TLL 5 2) (fun a' => checkBit TLL a' 2) = Some (1 - 1).
Proof.
  apply (toggleBit_flips_checkBit TLL 5 2 1); try reflexivity;
    unfold in_range, in_signed; simpl; lia.
Defined.

(** X3.  The three mutators keep the variable inside its type, at the sign
    position too: the updated [int] is an [int], the updated [long long] a
    [long long]. *)
Theorem mutators_stay_in_range (t : ity) (a b a' : Z) :
  in_range t a ->
  setBit t a b = Some a' \/ clearBit t a b = Some a'
  \/ toggleBit t a b = Some a' ->
  in_range t a'.
Proof.
  intros Ha [H|[H|H]].
  - exact (setBit_in_range t a b a' Ha H).
  - exact (clearBit_in_range t a b a' Ha H).
  - exact (toggleBit_in_range t a b a' Ha H).
Qed.

Lemma mutators_stay_in_range_witness : in_range TInt (-2147483648).
Proof.
  apply (mutators_stay_in_range TInt 0 31 (-2147483648)).
  - unfold in_range, in_signed. simpl. lia.
  - left. reflexivity.
Defined.

(** The bits of a signed value from its sign position upwards are its
    sign. *)
Lemma signed_high_testbit (w a i : Z) :
  0 < w -> in_signed w a -> w - 1 <= i -> Z.testbit a i = (a <? 0).
Proof.
  intros Hw Ha Hi.
  apply (in_signed_shiftr w) in Ha; [|lia].
  replace i with ((i - (w - 1)) + (w - 1)) by lia.
  rewrite <- Z.shiftr_spec by lia.
  assert (Hneg : Z.shiftr a (w - 1) < 0 <-> a < 0) by apply Z.shiftr_neg.
  destruct Ha as [E|E]; rewrite E in *.
  - rewrite Z.bits_0. symmetry. apply Z.ltb_ge. lia.
  - rewrite Z.bits_m1 by lia. symmetry. apply Z.ltb_lt. lia.
Qed.

Lemma int_high_testbit (a i : Z) :
  in_int a -> 31 <= i -> Z.testbit a i = (a <? 0).
Proof. intros Ha Hi. apply (signed_high_testbit 32); (assumption || lia). Qed.

Lemma to_int_high_pow2 (b : Z) : 32 <= b -> to_int (2 ^ b) = 0.
Proof.
  intros Hb. unfold to_int, to_signed.
  replace b with ((b - 32) + 32) by lia.
  rewrite Z.pow_add_r by lia.
  rewrite Z.add_comm, Z_mod_plus_full. reflexivity.
Qed.

(** X4.  On an [int] the positions 32 to 63 are accepted and do nothing:
    [setBit], [clearBit] and [toggleBit] leave the variable as it is, and
    [checkBit] answers with the sign of the value. *)
Theorem int_helpers_above_the_width (a b : Z) :
  in_int a -> 32 <= b < 64 ->
  setBit_int a b = Some a
  /\ clearBit_int a b = Some a
  /\ toggleBit_int a b = Some a
  /\ checkBit_int a b = Some (if a <? 0 then 1 else 0).
Proof.
  intros Ha Hb.
  assert (Hnot : to_int (not_ull (2 ^ b)) = -1).
  { symmetry. apply (signed_unique 32); [lia| | |].
    - unfold in_signed. simpl. lia.
    - apply to_signed_range. lia.
    - unfold to_int. rewrite to_signed_mod by lia.
      apply Z.bits_inj'. intros i Hi.
      destruct (Z_lt_ge_dec i 32) as [Hlt|Hge].
      + rewrite !Z.mod_pow2_bits_low by lia.
        rewrite not_ull_pow2_testbit, Z.bits_m1 by lia.
        symmetry. apply negb_true_iff, Z.eqb_neq. lia.
      + now rewrite !Z.mod_pow2_bits_high by lia. }
  unfold setBit_int, clearBit_int, toggleBit_int.
  rewrite shl_1ULL_some, Hnot, to_int_high_pow2 by lia.
  rewrite Z.lor_0_r, Z.land_m1_r, Z.lxor_0_r.
  repeat split.
  change (checkBit_int a b) with (checkBit TInt a b).
  rewrite checkBit_testbit by lia.
  now rewrite int_high_testbit by (assumption || lia).
Qed.

Lemma int_helpers_above_the_width_witness :
  setBit_int (-3) 40 = Some (-3)
  /\ clearBit_int (-3) 40 = Some (-3)
  /\ toggleBit_int (-3) 40 = Some (-3)
  /\ checkBit_int (-3) 40 = Some (if -3 <? 0 then 1 else 0).
Proof.
  apply (int_helpers_above_the_width (-3) 40);
    unfold in_int, in_signed; simpl; lia.
Defined.

(** Where the mask of [setBit] has a bit, the variable has its bit [b]. *)
Lemma mask_bits (t : ity) (a b i : Z) :
  in_range t a -> 0 <= b < width t -> 0 <= i ->
  Z.testbit (conv t (2 ^ b)) i = true -> Z.testbit a i = Z.testbit a b.
Proof.
  intros Ha Hb Hi Hm. pose proof (width_pos t) as Hw.
  destruct (Z_lt_ge_dec i (width t)) as [Hlt|Hge].
  - rewrite conv_pow2_testbit in Hm by lia.
    apply Z.eqb_eq in Hm. now subst.
  - rewrite (signed_high_testbit (width t)) in Hm
      by (try apply conv_range; lia).
    rewrite <- (signed_high_testbit (width t) _ (width t - 1)) in Hm
      by (try apply conv_range; lia).
    rewrite conv_pow2_testbit in Hm by lia.
    apply Z.eqb_eq in Hm. subst b.
    rewrite !(signed_high_testbit (width t) a) by (assumption || lia).
    reflexivity.
Qed.

(** X5.  [setBit] and [clearBit] undo one another: setting a bit that
    [checkBit] reports clear and clearing it again gives the value back,
    and so does clearing a bit that is set and setting it again. *)
Theorem setBit_clearBit_round_trip (t : ity) (a b : Z) :
  in_range t a -> 0 <= b < width t ->
  (checkBit t a b = Some 0 ->
   andThen (setBit t a b) (fun a' => clearBit t a' b) = Some a)
  /\ (checkBit t a b = Some 1 ->
      andThen (clearBit t a b) (fun a' => setBit t a' b) = Some a).
Proof.
  intros Ha Hb. pose proof (width_le_64 t) as Hw.
  rewrite checkBit_testbit by lia.
  rewrite setBit_eq, clearBit_eq by lia. simpl.
  rewrite setBit_eq, clearBit_eq by lia.
  rewrite conv_not_ull by lia.
  pose proof (fun i => mask_bits t a b i Ha Hb) as Hm.
  split; intros Hbit; f_equal; apply Z.bits_inj'; intros i Hi;
    rewrite ?Z.lor_spec, ?Z.land_spec, ?Z.lor_spec, ?Z.lnot_spec by lia;
    specialize (Hm i Hi);
    destruct (Z.testbit (conv t (2 ^ b)) i), (Z.testbit a i),
      (Z.testbit a b); simpl in *; try reflexivity;
    try congruence; specialize (Hm eq_refl); congruence.
Qed.

Lemma setBit_clearBit_round_trip_witness :
  andThen (setBit TInt 5 31) (fun a' => clearBit TInt a' 31) = Some 5
  /\ andThen (clearBit TLL (-1) 63) (fun a' => setBit TLL a' 63) = Some (-1).
Proof.
  split.
  - apply (setBit_clearBit_round_trip TInt 5 31); try reflexivity;
      unfold in_range, in_signed; simpl; lia.
  - apply (setBit_clearBit_round_trip TLL (-1) 63); try reflexivity;
      unfold in_range, in_signed; simpl; lia.
Defined.

End BitsLaws.

(** ** Properties of [print1] and the variadic [print] *)

Module PrintingLaws.
Import Bits BitsFacts Text TextFacts Output OutputFacts Printing.
Local Open Scope string_scope.

Section Print.
Variable T : Type.
Variable show : T -> string.

Lemma spaced_line_app (args v : list T) :
  v <> [] ->
  spaced_line T show (args ++ v)
  = spaced_prefix T show args ++ spaced_line T show v.
Proof.
  intros Hv. induction args as [|a rest IH]; [reflexivity|].
  simpl app. destruct (rest ++ v)%list eqn:E.
  - destruct rest; [contradiction | discriminate].
  - rewrite spaced_line_cons2, IH. simpl. now rewrite !append_assoc.
Qed.

(** Below 2^31 elements [print] writes the line of the whole vector. *)
Lemma print_fits (v : list T) (out : string) :
  (Z.of_nat (List.length v) < 2 ^ 31)%Z ->
  print T show v out = Some (out ++ spaced_line T show v).
Proof.
  intros Hfit. rewrite print_writes, (sz_fits T v Hfit), Nat2Z.id.
  now rewrite firstn_all.
Qed.

Lemma print1_fits (v : list T) (out : string) :
  (Z.of_nat (List.length v) < 2 ^ 31)%Z ->
  print1 T show v out = Some (out ++ spaced_line T show (tl v)).
Proof.
  intros Hfit. unfold print1, FOR. rewrite (sz_fits T v Hfit).
  destruct v as [|x r].
  - simpl. now rewrite append_nil_r.
  - replace (Z.of_nat (List.length (x :: r)) - 1)%Z
      with (Z.of_nat (List.length r)) by (cbn [List.length]; lia).
    rewrite Nat2Z.id.
    change 1%Z with (Z.of_nat (List.length [x])).
    apply (iterate_print_step T show r [x] [] (x :: r) out).
    + simpl. now rewrite app_nil_r.
    + rewrite (sz_fits T (x :: r) Hfit). cbn [List.length]. lia.
Qed.

(** X6.  On a vector of fewer than 2^31 elements [print1] leaves out the
    element at index 0 and writes the line of the others, so it writes
    what [print] writes on the vector without its first element; on a
    vector of one element it writes nothing, no newline either. *)
Theorem print1_skips_first (v : list T) (out : string) :
  (Z.of_nat (List.length v) < 2 ^ 31)%Z ->
  print1 T show v out = Some (out ++ spaced_line T show (tl v))
  /\ print1 T show v out = print T show (tl v) out
  /\ (List.length v = 1%nat -> print1 T show v out = Some out).
Proof.
  intros Hfit. pose proof (print1_fits v out Hfit) as H1.
  split; [exact H1 | split].
  - rewrite H1. symmetry. apply print_fits.
    destruct v; cbn [tl List.length] in *; lia.
  - intros L. rewrite H1. destruct v as [|x [|y r]]; try discriminate.
    simpl. now rewrite append_nil_r.
Qed.

Lemma print_args_value (args : list T) (a : T) :
  forall out,
    print_args T show args (LastValue T a) out
    = Some (out ++ spaced_line T show (args ++ [a])).
Proof.
  induction args as [|x rest IH]; intros out; cbn [print_args].
  - simpl. now rewrite append_assoc.
  - rewrite IH. change ((x :: rest) ++ [a])%list with ([x] ++ (rest ++ [a]))%list.
    rewrite (spaced_line_app [x]) by (destruct rest; discriminate).
    simpl. now rewrite !append_assoc.
Qed.

Lemma print_args_vector (args v : list T) :
  forall out,
    print_args T show args (LastVector T v) out
    = print T show v (out ++ spaced_prefix T show args).
Proof.
  induction args as [|x rest IH]; intros out; cbn [print_args].
  - simpl. now rewrite append_nil_r.
  - rewrite IH. simpl. now rewrite !append_assoc.
Qed.

(** X7.  A call [print(a1, ..., an)] on values writes them in argument
    order with one space between neighbours and one newline at the end;
    below 2^31 arguments this is what [print] writes on the vector of the
    same values. *)
Theorem print_args_line (args : list T) (a : T) (out : string) :
  print_args T show args (LastValue T a) out
  = Some (out ++ spaced_line T show (args ++ [a]))
  /\ ((Z.of_nat (List.length (args ++ [a])) < 2 ^ 31)%Z ->
      print_args T show args (LastValue T a) out
      = print T show (args ++ [a]) out).
Proof.
  split; [apply print_args_value|].
  intros Hfit. rewrite print_args_value. symmetry. now apply print_fits.
Qed.

(** X8.  When the last argument of [print(a1, ..., an, v)] is a vector of
    fewer than 2^31 elements, its elements continue the line of the
    values before it; when that vector is empty the line stops after the
    space that follows the last value and gets no newline. *)
Theorem print_args_vector_last (args v : list T) (out : string) :
  (Z.of_nat (List.length v) < 2 ^ 31)%Z ->
  (v <> [] ->
   print_args T show args (LastVector T v) out
   = Some (out ++ spaced_line T show (args ++ v)))
  /\ (v = [] ->
      print_args T show args (LastVector T v) out
      = Some (out ++ spaced_prefix T show args)).
Proof.
  intros Hfit. rewrite print_args_vector, print_fits by assumption. split.
  - intros Hv. rewrite spaced_line_app by assumption.
    now rewrite append_assoc.
  - intros ->. simpl. now rewrite append_nil_r.
Qed.
End Print.

(** X23.  On every vector, whatever its size, [print] is defined and
    writes the line of the first [sz(v)] elements: it never reads outside
    the vector, and with a size whose conversion to [int] is not positive
    it writes nothing. *)
Theorem print_first_sz_elements (T : Type) (show : T -> string)
    (v : list T) (out : string) :
  print T show v out
  = Some (out ++ spaced_line T show (firstn (Z.to_nat (sz T v)) v))
  /\ ((sz T v <= 0)%Z -> print T show v out = Some out).
Proof.
  split; [apply print_writes|]. intros H. now apply print_nothing.
Qed.

Lemma print_first_sz_elements_witness :
  print Z dec [] "x" = Some "x".
Proof.
  destruct (print_first_sz_elements Z dec [] "x") as [_ H].
  apply H. reflexivity.
Defined.

Lemma print1_skips_first_witness :
  print1 Z dec [9; 1; 2]%Z EmptyString
  = Some (EmptyString ++ spaced_line Z dec (tl [9; 1; 2]%Z))
  /\ print1 Z dec [9; 1; 2]%Z EmptyString = print Z dec (tl [9; 1; 2]%Z) EmptyString
  /\ print1 Z dec [9]%Z "x" = Some "x".
Proof.
  destruct (print1_skips_first Z dec [9; 1; 2]%Z EmptyString) as (A & B & _);
    [simpl; lia|].
  destruct (print1_skips_first Z dec [9]%Z "x") as (_ & _ & C); [simpl; lia|].
  split; [exact A | split; [exact B | apply C; reflexivity]].
Defined.

Lemma print_args_line_witness :
  print_args Z dec [1; 2]%Z (LastValue Z 3%Z) EmptyString
  = print Z dec [1; 2; 3]%Z EmptyString.
Proof.
  destruct (print_args_line Z dec [1; 2]%Z 3%Z EmptyString) as [_ H].
  apply H. simpl. lia.
Defined.

Lemma print_args_vector_last_witness :
  print_args Z dec [1]%Z (LastVector Z [2; 3]%Z) EmptyString
  = Some (EmptyString ++ spaced_line Z dec [1; 2; 3]%Z)
  /\ print_args Z dec [1]%Z (LastVector Z []) EmptyString
     = Some (EmptyString ++ spaced_prefix Z dec [1]%Z).
Proof.
  destruct (print_args_vector_last Z dec [1]%Z [2; 3]%Z EmptyString) as [A _];
    [simpl; lia|].
  destruct (print_args_vector_last Z dec [1]%Z [] EmptyString) as [_ B];
    [simpl; lia|].
  split; [apply A; discriminate | apply B; reflexivity].
Defined.

Example print_args_trailing_space :
  print_args Z dec [1; 2]%Z (LastVector Z []) EmptyString = Some "1 2 "
  /\ print_args Z dec [1; 2]%Z (LastValue Z 3%Z) EmptyString
     = Some ("1 2 3" ++ endl).
Proof. split; reflexivity. Qed.

End PrintingLaws.

(** ** Properties of [readvec] and [readvec1] *)

Module VectorsLaws.
Import Bits BitsFacts Text TextFacts Output OutputFacts Printing PrintingLaws.
Import Input InputClaims Vectors.

Lemma set_nth_app {A : Type} (pre suf : list A) (x y : A) :
  set_nth (List.length pre) y (pre ++ x :: suf) = pre ++ y :: suf.
Proof. induction pre as [|p pre IH]; simpl; [reflexivity | now rewrite IH]. Qed.

Section ReadVec.
Variable istream : Type.
Variable cell : Type.
Variable extract : istream -> cell -> istream * cell.
Variable default : cell.

Local Abbreviation read := (read istream cell extract).
Local Abbreviation readvec := (readvec istream cell extract default).
Local Abbreviation readvec1 := (readvec1 istream cell extract default).
Local Abbreviation readvec_step := (readvec_step istream cell extract).
Local Abbreviation resized := (resized cell default).

Lemma resized_length (v : list cell) (n : Z) :
  List.length (resized v n) = Z.to_nat n.
Proof. unfold Vectors.resized. rewrite length_app, length_firstn, repeat_length. lia. Qed.

(** The loop of [readvec]: with [pre] already read, the iterations over
    [suf] are a [read] on [suf]. *)
Lemma readvec_loop (suf : list cell) :
  forall (pre : list cell) (cin : istream),
    iterate readvec_step (Z.of_nat (List.length pre)) (List.length suf)
      (cin, pre ++ suf)
    = Some (fst (read cin suf), pre ++ snd (read cin suf)).
Proof.
  induction suf as [|x suf IH]; intros pre cin.
  - reflexivity.
  - cbn [iterate List.length Vectors.readvec_step].
    unfold at_index.
    replace (Z.of_nat (List.length pre) <? 0) with false
      by (symmetry; apply Z.ltb_ge; lia).
    rewrite Nat2Z.id, nth_error_app2, Nat.sub_diag by lia.
    cbn [nth_error Input.read].
    destruct (extract cin x) as [c1 x'].
    rewrite set_nth_app.
    replace (Z.of_nat (List.length pre) + 1)
      with (Z.of_nat (List.length (pre ++ [x']))) by (rewrite length_app; simpl; lia).
    replace (pre ++ x' :: suf) with ((pre ++ [x']) ++ suf)
      by (now rewrite <- app_assoc).
    rewrite IH. destruct (read c1 suf) as [c2 suf'].
    simpl. now rewrite <- app_assoc.
Qed.

Lemma readvec_read (cin : istream) (v : list cell) (n : Z) :
  0 <= n -> readvec cin v n = Some (read cin (resized v n)).
Proof.
  intros Hn. unfold Vectors.readvec, resize.
  replace (n <? 0) with false by (symmetry; apply Z.ltb_ge; lia).
  unfold FOR. rewrite Z.sub_0_r.
  pose proof (readvec_loop (resized v n) [] cin) as H.
  rewrite resized_length in H. cbn [List.length Z.of_nat app] in H.
  rewrite H. now destruct (read cin (resized v n)).
Qed.

(** X9.  [readvec(v, n)] with [0 <= n] is [read] on the [n] elements of
    the resized vector, in index order; with a negative [n] the resize
    fails and nothing is read. *)
Theorem readvec_is_read (cin : istream) (v : list cell) (n : Z) :
  (0 <= n -> readvec cin v n = Some (read cin (resized v n)))
  /\ (n < 0 -> readvec cin v n = None).
Proof.
  split; intros Hn; [now apply readvec_read|].
  unfold Vectors.readvec, resize.
  now replace (n <? 0) with true by (symmetry; apply Z.ltb_lt; lia).
Qed.

Lemma readvec1_read (cin : istream) (v : list cell) (n : Z) :
  0 <= n < 2147483647 ->
  readvec1 cin v n
  = Some (fst (read cin (tl (resized v (n + 1)))),
          hd default v :: snd (read cin (tl (resized v (n + 1))))).
Proof.
  intros Hn. unfold Vectors.readvec1, resize.
  replace (n =? 2147483647) with false by (symmetry; apply Z.eqb_neq; lia).
  replace (n + 1 <? 0) with false by (symmetry; apply Z.ltb_ge; lia).
  pose proof (resized_length v (n + 1)) as L.
  assert (Hhd : exists r, resized v (n + 1) = hd default v :: r).
  { unfold Vectors.resized in *.
    replace (Z.to_nat (n + 1)) with (S (Z.to_nat n)) in * by lia.
    destruct v as [|x v]; simpl; eauto. }
  destruct Hhd as [r Hr]. rewrite Hr in *. cbn [tl].
  unfold FOR. replace (n + 1 - 1) with n by lia.
  replace (Z.to_nat n) with (List.length r) by (simpl in L; lia).
  exact (readvec_loop r [hd default v] cin).
Qed.

(** X11.  [readvec1(v, n)] does not read the element at index 0: it keeps
    what [v] held there ([T()] if [v] was empty) and reads the [n]
    elements after it in index order; with [n = -1] the vector becomes
    empty and nothing is read, below that the resize fails. *)
Theorem readvec1_keeps_first (cin : istream) (v : list cell) (n : Z) :
  n < 2147483647 ->
  (0 <= n ->
   readvec1 cin v n
   = Some (fst (read cin (tl (resized v (n + 1)))),
           hd default v :: snd (read cin (tl (resized v (n + 1))))))
  /\ (n = -1 -> readvec1 cin v n = Some (cin, []))
  /\ (n < -1 -> readvec1 cin v n = None).
Proof.
  intros Hmax. split; [|split]; intros Hn.
  - apply readvec1_read. lia.
  - subst n. reflexivity.
  - unfold Vectors.readvec1, resize.
    replace (n =? 2147483647) with false by (symmetry; apply Z.eqb_neq; lia).
    now replace (n + 1 <? 0) with true by (symmetry; apply Z.ltb_lt; lia).
Qed.
End ReadVec.

Section Tokens.
(** The tokens of a stream and what they store, as for [read]; an
    extraction overwrites the variable, whatever it held. *)
Variable istream : Type.
Variable cell : Type.
Variable extract : istream -> cell -> istream * cell.
Variable default : cell.
Variable token : Type.
Variable pending : istream -> list token.
Variable store : token -> cell -> cell.
Hypothesis extract_token :
  forall s x t ts,
    pending s = t :: ts ->
    pending (fst (extract s x)) = ts /\ snd (extract s x) = store t x.
Hypothesis store_overwrites : forall t x y, store t x = store t y.

Lemma stored_overwrites (toks : list token) :
  forall args : list cell,
    List.length toks = List.length args ->
    stored store toks args = map (fun t => store t default) toks.
Proof.
  induction toks as [|t toks IH]; intros [|x args] L; try discriminate.
  - reflexivity.
  - unfold stored in *. simpl. rewrite (store_overwrites t x default).
    f_equal. apply IH. simpl in L. lia.
Qed.

(** X10.  With [n] tokens ahead, [readvec(v, n)] takes exactly these
    tokens and leaves [v] with [n] elements, the i-th holding the i-th
    token, whatever [v] held before the call. *)
Theorem readvec_replaces_content (cin : istream) (v : list cell) (n : Z)
    (toks rest : list token) :
  0 <= n ->
  pending cin = toks ++ rest ->
  List.length toks = Z.to_nat n ->
  exists cin',
    readvec istream cell extract default cin v n
    = Some (cin', map (fun t => store t default) toks)
    /\ pending cin' = rest.
Proof.
  intros Hn Hp L.
  rewrite (readvec_read istream cell extract default cin v n Hn).
  assert (L' : List.length toks = List.length (resized cell default v n))
    by now rewrite resized_length.
  destruct (read_tokens istream cell extract token pending store
              extract_token (resized cell default v n) cin toks rest Hp L')
    as [H1 H2].
  exists (fst (read istream cell extract cin (resized cell default v n))).
  split; [|assumption].
  rewrite <- (stored_overwrites toks _ L'), <- H2.
  now destruct (read istream cell extract cin (resized cell default v n)).
Qed.
End Tokens.

Section ShortInput.
(** The tokens of a stream and what they store, as for [read]; on a
    stream with no token ahead an extraction leaves the variable as it
    was and the stream without tokens. *)
Variable istream : Type.
Variable cell : Type.
Variable extract : istream -> cell -> istream * cell.
Variable token : Type.
Variable pending : istream -> list token.
Variable store : token -> cell -> cell.
Hypothesis extract_token :
  forall s x t ts,
    pending s = t :: ts ->
    pending (fst (extract s x)) = ts /\ snd (extract s x) = store t x.
Hypothesis extract_nothing :
  forall s x,
    pending s = [] ->
    pending (fst (extract s x)) = [] /\ snd (extract s x) = x.

Lemma read_exhausted (args : list cell) :
  forall cin,
    pending cin = [] ->
    pending (fst (Input.read istream cell extract cin args)) = []
    /\ snd (Input.read istream cell extract cin args) = args.
Proof.
  induction args as [|x r IH]; intros cin Hp; [simpl; auto|].
  destruct (extract_nothing cin x Hp) as [H1 H2].
  cbn [Input.read]. destruct (extract cin x) as [c1 x']. simpl in H1, H2.
  destruct (IH c1 H1) as [H3 H4].
  destruct (Input.read istream cell extract c1 r) as [c2 r'].
  simpl in *. now subst.
Qed.

Lemma read_then_exhausted (A B : list cell) (cin : istream)
    (toks : list token) :
  pending cin = toks ->
  List.length toks = List.length A ->
  pending (fst (Input.read istream cell extract cin (A ++ B))) = []
  /\ snd (Input.read istream cell extract cin (A ++ B))
     = (stored store toks A ++ B)%list.
Proof.
  intros Hp L. rewrite read_app.
  destruct (read_tokens istream cell extract token pending store
              extract_token A cin toks []
              ltac:(now rewrite app_nil_r) L) as [H1 H2].
  destruct (read_exhausted B _ H1) as [H3 H4].
  cbn [fst snd]. now rewrite H2, H3, H4.
Qed.

(** X24.  When the stream runs out before the arguments do, [read] gives
    the tokens there are to the first arguments, in order, and leaves
    every later argument as it was. *)
Theorem read_short_input (args : list cell) (cin : istream)
    (toks : list token) :
  pending cin = toks ->
  (List.length toks <= List.length args)%nat ->
  pending (fst (Input.read istream cell extract cin args)) = []
  /\ snd (Input.read istream cell extract cin args)
     = (stored store toks (firstn (List.length toks) args)
        ++ skipn (List.length toks) args)%list.
Proof.
  intros Hp L.
  pose proof (read_then_exhausted (firstn (List.length toks) args)
                (skipn (List.length toks) args) cin toks Hp) as H.
  rewrite firstn_skipn in H. apply H.
  rewrite firstn_length_le; lia.
Qed.
End ShortInput.

Section Echo.
(** As above, with the text [cout << x] writes for an element: an element
    read from a token prints as the text of that token. *)
Variable istream : Type.
Variable cell : Type.
Variable extract : istream -> cell -> istream * cell.
Variable default : cell.
Variable token : Type.
Variable pending : istream -> list token.
Variable store : token -> cell -> cell.
Variable show : cell -> string.
Variable text : token -> string.
Hypothesis extract_token :
  forall s x t ts,
    pending s = t :: ts ->
    pending (fst (extract s x)) = ts /\ snd (extract s x) = store t x.
Hypothesis show_store : forall t x, show (store t x) = text t.

Lemma spaced_line_stored (toks : list token) :
  forall args : list cell,
    List.length toks = List.length args ->
    spaced_line cell show (stored store toks args)
    = spaced_line token text toks.
Proof.
  unfold stored.
  induction toks as [|t toks IH]; intros [|x args] L; try discriminate.
  - reflexivity.
  - simpl in L. injection L as L. specialize (IH args L).
    destruct toks as [|t' toks]; destruct args as [|x' args];
      try discriminate.
    + simpl. now rewrite show_store.
    + cbn [combine map fst snd] in *. rewrite !spaced_line_cons2.
      now rewrite IH, show_store.
Qed.

(** X12.  What [readvec] reads, [print] writes back: after
    [readvec(v, n)] on a stream with [n] tokens ahead, [print(v)] writes
    the line of these tokens; and after [readvec1(v, n)], [print1(v)]
    writes the same line. *)
Theorem print_echoes_readvec (cin : istream) (v : list cell) (n : Z)
    (toks rest : list token) (out : string) :
  0 <= n < 2147483647 ->
  pending cin = toks ++ rest ->
  List.length toks = Z.to_nat n ->
  (exists cin' v',
     readvec istream cell extract default cin v n = Some (cin', v')
     /\ print cell show v' out
        = Some (out ++ spaced_line token text toks)%string)
  /\ (exists cin' v',
        readvec1 istream cell extract default cin v n = Some (cin', v')
        /\ print1 cell show v' out
           = Some (out ++ spaced_line token text toks)%string).
Proof.
  intros Hn Hp L. split.
  - rewrite (readvec_read istream cell extract default cin v n) by lia.
    assert (L' : List.length toks = List.length (resized cell default v n))
      by now rewrite resized_length.
    destruct (read_tokens istream cell extract token pending store
                extract_token (resized cell default v n) cin toks rest Hp L')
      as [_ H2].
    destruct (read istream cell extract cin (resized cell default v n))
      as [c v'] eqn:E. simpl in H2. exists c, v'. split; [reflexivity|].
    rewrite print_fits.
    + now rewrite H2, spaced_line_stored.
    + rewrite H2. unfold stored. rewrite length_map, length_combine, <- L'.
      change (2 ^ 31) with 2147483648. lia.
  - rewrite (readvec1_read istream cell extract default cin v n) by lia.
    set (r := tl (resized cell default v (n + 1))).
    assert (L' : List.length toks = List.length r).
    { unfold r. pose proof (resized_length cell default v (n + 1)) as Lr.
      destruct (resized cell default v (n + 1)); simpl in *; lia. }
    destruct (read_tokens istream cell extract token pending store
                extract_token r cin toks rest Hp L') as [_ H2].
    eexists _, _. split; [reflexivity|].
    rewrite print1_fits.
    + cbn [tl]. now rewrite H2, spaced_line_stored.
    + cbn [List.length]. rewrite H2. unfold stored.
      rewrite length_map, length_combine, <- L'.
      change (2 ^ 31) with 2147483648. lia.
Qed.
End Echo.

(** The word stream of [Input] has the token behaviour assumed above. *)
Lemma extract_word_token (s : word_stream) (x t : string) (ts : list string) :
  visible_words s = t :: ts ->
  visible_words (fst (extract_word s x)) = ts
  /\ snd (extract_word s x) = t.
Proof.
  unfold visible_words, extract_word. intros H.
  destruct (failed s); [discriminate|]. rewrite H. simpl. auto.
Qed.

Lemma extract_word_nothing (s : word_stream) (x : string) :
  visible_words s = [] ->
  visible_words (fst (extract_word s x)) = []
  /\ snd (extract_word s x) = x.
Proof.
  unfold visible_words, extract_word. intros H.
  destruct (failed s) eqn:F; [simpl; now rewrite F|].
  rewrite H. simpl. auto.
Qed.

Lemma read_short_input_witness :
  let cin := {| pending_words := ["a"]%string; failed := false |} in
  visible_words (fst (read word_stream string extract_word cin
                        ["x"; "y"; "z"]%string)) = []
  /\ snd (read word_stream string extract_word cin ["x"; "y"; "z"]%string)
     = ["a"; "y"; "z"]%string.
Proof.
  intros cin.
  apply (read_short_input word_stream string extract_word string
           visible_words (fun t _ => t) extract_word_token
           extract_word_nothing ["x"; "y"; "z"]%string cin ["a"]%string).
  - reflexivity.
  - simpl. lia.
Defined.

Lemma readvec_is_read_witness :
  let cin := {| pending_words := ["a"; "b"; "c"]%string; failed := false |} in
  readvec word_stream string extract_word EmptyString cin ["x"]%string 2
  = Some (read word_stream string extract_word cin
            (resized string EmptyString ["x"]%string 2))
  /\ readvec word_stream string extract_word EmptyString cin ["x"]%string (-1)
     = None.
Proof.
  intros cin.
  destruct (readvec_is_read word_stream string extract_word EmptyString
              cin ["x"]%string 2) as [A _].
  destruct (readvec_is_read word_stream string extract_word EmptyString
              cin ["x"]%string (-1)) as [_ B].
  split; [apply A | apply B]; lia.
Defined.

Lemma readvec1_keeps_first_witness :
  let cin := {| pending_words := ["a"; "b"; "c"]%string; failed := false |} in
  readvec1 word_stream string extract_word EmptyString cin ["x"]%string 2
  = Some ({| pending_words := ["c"]%string; failed := false |},
          ["x"; "a"; "b"]%string)
  /\ readvec1 word_stream string extract_word EmptyString cin ["x"]%string (-1)
     = Some (cin, [])
  /\ readvec1 word_stream string extract_word EmptyString cin ["x"]%string (-2)
     = None.
Proof.
  intros cin.
  destruct (readvec1_keeps_first word_stream string extract_word EmptyString
              cin ["x"]%string 2) as (A & _ & _); [lia|].
  destruct (readvec1_keeps_first word_stream string extract_word EmptyString
              cin ["x"]%string (-1)) as (_ & B & _); [lia|].
  destruct (readvec1_keeps_first word_stream string extract_word EmptyString
              cin ["x"]%string (-2)) as (_ & _ & C); [lia|].
  split; [apply A; lia | split; [apply B; reflexivity | apply C; lia]].
Defined.

Lemma readvec_replaces_content_witness :
  exists cin',
    readvec word_stream string extract_word EmptyString
      {| pending_words := ["a"; "b"; "c"]%string; failed := false |}
      ["x"; "y"; "z"]%string 2
    = Some (cin', ["a"; "b"]%string)
    /\ visible_words cin' = ["c"]%string.
Proof.
  apply (readvec_replaces_content word_stream string extract_word EmptyString
           string visible_words (fun t _ => t) extract_word_token
           (fun _ _ _ => eq_refl)
           {| pending_words := ["a"; "b"; "c"]%string; failed := false |}
           ["x"; "y"; "z"]%string 2 ["a"; "b"]%string ["c"]%string).
  - lia.
  - reflexivity.
  - reflexivity.
Defined.

Lemma print_echoes_readvec_witness :
  let cin := {| pending_words := ["a"; "b"; "c"]%string; failed := false |} in
  (exists cin' v',
     readvec word_stream string extract_word EmptyString cin [] 2
     = Some (cin', v')
     /\ print string (fun s => s) v' EmptyString
        = Some (EmptyString
                ++ spaced_line string (fun s => s) ["a"; "b"]%string)%string)
  /\ (exists cin' v',
        readvec1 word_stream string extract_word EmptyString cin [] 2
        = Some (cin', v')
        /\ print1 string (fun s => s) v' EmptyString
           = Some (EmptyString
                   ++ spaced_line string (fun s => s) ["a"; "b"]%string)%string).
Proof.
  intros cin.
  apply (print_echoes_readvec word_stream string extract_word EmptyString
           string visible_words (fun t _ => t) (fun s => s) (fun s => s)
           extract_word_token (fun _ _ => eq_refl)
           cin [] 2 ["a"; "b"]%string ["c"]%string EmptyString).
  - lia.
  - reflexivity.
  - reflexivity.
Defined.

End VectorsLaws.

(** ** Properties of the debug printer *)

Module DebugLaws.
Import Bits BitsFacts Text TextFacts Debug DebugFacts DebugText.
Local Open Scope string_scope.

Lemma _cerr_rendering (x : dval) (b : bool) (cerr : string) :
  _cerr x b cerr = cerr ++ rendering b x.
Proof. apply (_cerr_app x). Qed.

(** The loop of the container overload with a counter that has not
    wrapped: a separator before every element but the first of the
    container. *)
Lemma each_elem_concat (b : bool) (l : list dval) :
  forall (f : Z) (cerr : string),
    (0 <= f)%Z ->
    each_elem b l f cerr
    = cerr ++ match l with
              | [] => EmptyString
              | _ => (if (f =? 0)%Z then EmptyString else ", ")
                     ++ String.concat ", " (map (rendering b) l)
              end.
Proof.
  induction l as [|i rest IH]; intros f cerr Hf; cbn [each_elem].
  - now rewrite append_nil_r.
  - rewrite IH by lia. rewrite _cerr_rendering.
    replace (f + 1 =? 0)%Z with false by (symmetry; apply Z.eqb_neq; lia).
    destruct rest as [|j rest'].
    + cbn [map String.concat]. now rewrite append_nil_r, !append_assoc.
    + cbn [map String.concat]. now rewrite !append_assoc.
Qed.

(** X13.  For a container of fewer than 2^31 elements [_cerr] writes an
    opening brace, what it writes for the elements in iteration order
    with a comma and a space between neighbours, and a closing brace; an
    empty container gives the two braces. *)
Theorem _cerr_container (l : list dval) (b : bool) (cerr : string) :
  (Z.of_nat (List.length l) < 2 ^ 31)%Z ->
  _cerr (DContainer l) b cerr
  = cerr ++ "{" ++ String.concat ", " (map (rendering b) l) ++ "}".
Proof.
  intros _. rewrite container_loop, each_elem_concat by lia.
  destruct l; cbn [map String.concat Z.eqb]; now rewrite !append_assoc.
Qed.

Lemma _cerr_container_witness :
  _cerr (DContainer [DInt 1; DInt 2; DInt 3]) false "> "
  = "> " ++ "{" ++ String.concat ", "
                     (map (rendering false) [DInt 1; DInt 2; DInt 3]) ++ "}".
Proof.
  apply (_cerr_container [DInt 1; DInt 2; DInt 3] false "> ").
  simpl. lia.
Defined.

Lemma err_labels (args : list dval) :
  forall (n : string) (ns : list string) (cerr : string),
    (List.length args <= S (List.length ns))%nat ->
    err false {| current := n; upcoming := ns |} args cerr
    = cerr ++ labelled false (n :: ns) args ++ endl.
Proof.
  induction args as [|a rest IH]; intros n ns cerr L; cbn [err cerr_put].
  - reflexivity.
  - rewrite _cerr_rendering. cbn [current labelled].
    destruct ns as [|m r].
    + destruct rest; [|simpl in L; lia].
      cbn [iter_next upcoming err cerr_put labelled].
      now rewrite !append_assoc.
    + cbn [iter_next upcoming]. rewrite IH by (simpl in *; lia).
      now rewrite !append_assoc.
Qed.

Lemma errbin_labels (args : list dval) :
  forall (n : string) (ns : list string) (cerr : string),
    (List.length args <= S (List.length ns))%nat ->
    errbin false {| current := n; upcoming := ns |} args cerr
    = cerr ++ labelled true (n :: ns) args ++ endl.
Proof.
  induction args as [|a rest IH]; intros n ns cerr L; cbn [errbin cerr_put].
  - reflexivity.
  - rewrite _cerr_rendering. cbn [current labelled].
    destruct ns as [|m r].
    + destruct rest; [|simpl in L; lia].
      cbn [iter_next upcoming errbin cerr_put labelled].
      now rewrite !append_assoc.
    + cbn [iter_next upcoming]. rewrite IH by (simpl in *; lia).
      now rewrite !append_assoc.
Qed.

(** X14.  Given at least as many names as values, [err] writes for the
    i-th value one line made of the i-th name, [ = ], and the value as
    [_cerr] renders it without the binary form; one more newline closes
    the output.  [errbin] does the same with the binary form. *)
Theorem err_names_values (names : list string) (args : list dval)
    (cerr : string) :
  (List.length args <= List.length names)%nat ->
  err false (iter_begin names) args cerr
  = cerr ++ labelled false names args ++ endl
  /\ errbin false (iter_begin names) args cerr
     = cerr ++ labelled true names args ++ endl.
Proof.
  intros L. destruct names as [|n ns].
  - destruct args; [split; reflexivity | simpl in L; lia].
  - split; [apply err_labels | apply errbin_labels]; simpl in L; lia.
Qed.

Lemma err_names_values_witness :
  err false (iter_begin ["x"; "y"]) [DInt 5; DBool true] EmptyString
  = EmptyString ++ labelled false ["x"; "y"] [DInt 5; DBool true] ++ endl
  /\ errbin false (iter_begin ["x"; "y"]) [DInt 5; DBool true] EmptyString
     = EmptyString ++ labelled true ["x"; "y"] [DInt 5; DBool true] ++ endl.
Proof.
  apply (err_names_values ["x"; "y"] [DInt 5; DBool true] EmptyString).
  simpl. lia.
Defined.

(** X16.  Compiled with [ONLINE_JUDGE], [err] and [errbin] are not
    silent when called: the names, the [ = ] and the newlines are
    suppressed, but every value is still written by [_cerr], one right
    after the other. *)
Theorem err_under_judge_writes_values (it : iter) (args : list dval)
    (cerr : string) :
  err true it args cerr
  = cerr ++ String.concat EmptyString (map (rendering false) args)
  /\ errbin true it args cerr
     = cerr ++ String.concat EmptyString (map (rendering true) args).
Proof.
  split; revert it cerr; induction args as [|a rest IH]; intros it cerr;
    cbn [err errbin cerr_put]; try (now rewrite append_nil_r);
    rewrite IH, _cerr_rendering, append_assoc; f_equal;
    destruct rest; cbn [map String.concat]; try reflexivity;
    now rewrite append_nil_r.
Qed.

Lemma replace_commas_app (a c : string) :
  replace_commas (a ++ c) = replace_commas a ++ replace_commas c.
Proof. induction a as [|ch a IH]; simpl; [reflexivity | now rewrite IH]. Qed.

Lemma replace_commas_plain (s : string) :
  plain_chars s = true -> replace_commas s = s.
Proof.
  induction s as [|ch s IH]; simpl; [reflexivity|]. intros H.
  apply andb_true_iff in H as [H Hs]. apply andb_true_iff in H as [Hc _].
  apply negb_true_iff in Hc. rewrite Hc. now rewrite IH.
Qed.

Lemma words_from_plain (s : string) :
  plain_chars s = true ->
  forall cur rest, words_from cur (s ++ rest) = words_from (cur ++ s) rest.
Proof.
  induction s as [|ch s IH]; simpl; intros H cur rest.
  - now rewrite append_nil_r.
  - apply andb_true_iff in H as [H Hs]. apply andb_true_iff in H as [_ Hsp].
    apply negb_true_iff in Hsp. rewrite Hsp. rewrite IH by assumption.
    now rewrite append_assoc.
Qed.

Lemma words_from_gap_chars (g : string) :
  gap_chars g = true ->
  forall rest,
    words_from EmptyString (replace_commas g ++ rest)
    = words_from EmptyString rest.
Proof.
  induction g as [|c g IH]; simpl; intros H rest; [reflexivity|].
  apply andb_true_iff in H as [Hc Hg].
  assert (Hsp : is_space (if Ascii.eqb c "," then " " else c)%char = true).
  { destruct (Ascii.eqb c ","); [reflexivity|]. exact Hc. }
  rewrite Hsp. now apply IH.
Qed.

(** A stretch between two arguments ends the word in front of it. *)
Lemma words_from_gap (g : string) :
  gap g = true ->
  forall c cur rest,
    words_from (String c cur) (replace_commas g ++ rest)
    = String c cur :: words_from EmptyString rest.
Proof.
  destruct g as [|ch g]; [discriminate|]. simpl. intros H c cur rest.
  apply andb_true_iff in H as [Hc Hg].
  assert (Hsp : is_space (if Ascii.eqb ch "," then " " else ch)%char = true).
  { destruct (Ascii.eqb ch ","); [reflexivity|]. exact Hc. }
  rewrite Hsp. f_equal. now apply words_from_gap_chars.
Qed.

(** The words of the argument text of plain names are the names. *)
Lemma words_of_arg_text (more : list (string * string)) :
  forall first,
    plain_call first more = true ->
    words (replace_commas (arg_text first more)) = first :: map snd more.
Proof.
  unfold words, plain_call.
  induction more as [|[g n] rest IH]; intros first H;
    apply andb_true_iff in H as [Hf Hm].
  - assert (Hp : plain_chars first = true)
      by (destruct first; [discriminate|exact Hf]).
    cbn [arg_text map]. rewrite replace_commas_plain by assumption.
    rewrite <- (append_nil_r first) at 1.
    rewrite words_from_plain by assumption.
    destruct first; [discriminate|reflexivity].
  - cbn [forallb fst snd] in Hm.
    apply andb_true_iff in Hm as [Hgn Hrest].
    apply andb_true_iff in Hgn as [Hg Hn].
    assert (Hp : plain_chars first = true)
      by (destruct first; [discriminate|exact Hf]).
    cbn [arg_text map snd].
    rewrite !replace_commas_app, replace_commas_plain by assumption.
    rewrite words_from_plain by assumption.
    destruct first as [|c first']; [discriminate|].
    cbn [append]. rewrite words_from_gap by assumption.
    f_equal. apply IH. now rewrite Hn, Hrest.
Qed.

(** X15.  A call [debug(x1, ..., xn)] whose arguments are plain names
    (no comma and no white space inside an argument, commas and white
    space between them) writes one line [xi = value] per argument, in
    argument order, and one empty line; [debugbin] does the same with
    the binary form of the values. *)
Theorem debug_names_values (first : string) (more : list (string * string))
    (args : list dval) (cerr : string) :
  plain_call first more = true ->
  List.length args = S (List.length more) ->
  debug false (arg_text first more) args cerr
  = cerr ++ labelled false (first :: map snd more) args ++ endl
  /\ debugbin false (arg_text first more) args cerr
     = cerr ++ labelled true (first :: map snd more) args ++ endl.
Proof.
  intros Hp L. unfold debug, debugbin.
  rewrite words_of_arg_text by assumption.
  split; [apply err_labels | apply errbin_labels]; rewrite length_map; lia.
Qed.

Lemma debug_names_values_witness :
  debug false (arg_text "x" [(", ", "cnt"); (",", "v")])
    [DInt 5; DBool true; DContainer [DInt 1]] EmptyString
  = EmptyString
    ++ labelled false ("x" :: map snd [(", ", "cnt"); (",", "v")])
         [DInt 5; DBool true; DContainer [DInt 1]]
    ++ endl
  /\ debugbin false (arg_text "x" [(", ", "cnt"); (",", "v")])
       [DInt 5; DBool true; DContainer [DInt 1]] EmptyString
     = EmptyString
       ++ labelled true ("x" :: map snd [(", ", "cnt"); (",", "v")])
            [DInt 5; DBool true; DContainer [DInt 1]]
       ++ endl.
Proof.
  apply (debug_names_values "x" [(", ", "cnt"); (",", "v")]
           [DInt 5; DBool true; DContainer [DInt 1]] EmptyString);
    reflexivity.
Defined.

Example debug_shifted_names :
  debug false "f(a, b), c" [DInt 1; DInt 2] EmptyString
  = "f(a = 1" ++ endl ++ "b) = 2" ++ endl ++ endl.
Proof. reflexivity. Qed.

Lemma mod_pow2_succ (x : Z) (k : nat) :
  (x mod 2 ^ Z.of_nat (S k)
   = Z.b2z (Z.testbit x (Z.of_nat k)) * 2 ^ Z.of_nat k + x mod 2 ^ Z.of_nat k)%Z.
Proof.
  rewrite Nat2Z.inj_succ, Z.pow_succ_r by lia.
  assert (Hp : (0 < 2 ^ Z.of_nat k)%Z) by (apply Z.pow_pos_nonneg; lia).
  rewrite (Z.mul_comm 2), Z.rem_mul_r by lia.
  rewrite Z.testbit_spec' by lia. lia.
Qed.

Lemma bin_value_from_bits (n : nat) (x : Z) :
  forall acc,
    bin_value_from acc (bits_msb_first n x)
    = (acc * 2 ^ Z.of_nat n + x mod 2 ^ Z.of_nat n)%Z.
Proof.
  induction n as [|k IH]; intros acc.
  - simpl. rewrite Z.mod_1_r. lia.
  - cbn [bits_msb_first bin_value_from]. rewrite IH, mod_pow2_succ.
    rewrite Nat2Z.inj_succ, Z.pow_succ_r by lia.
    destruct (Z.testbit x (Z.of_nat k));
      [change (Ascii.eqb "1" "1") with true
      | change (Ascii.eqb "0" "1") with false];
      cbv iota; cbn [Z.b2z]; lia.
Qed.

Lemma bits_msb_first_length (n : nat) (x : Z) :
  String.length (bits_msb_first n x) = n.
Proof. induction n as [|k IH]; simpl; [reflexivity | now rewrite IH]. Qed.

(** X17.  [toBin] writes, between brackets, exactly [8 * sizeof(a)]
    binary digits, and read as a binary number, highest digit first, they
    are the value modulo [2^(8 * sizeof(a))]: the two's complement of [a]
    at its width. *)
Theorem toBin_digits (size_of : nat) (a : Z) (cerr : string) :
  (8 * size_of <= 64)%nat ->
  exists digits,
    toBin size_of a cerr = cerr ++ "[" ++ digits ++ "]"
    /\ String.length digits = (8 * size_of)%nat
    /\ bin_value digits = (a mod 2 ^ Z.of_nat (8 * size_of))%Z.
Proof.
  intros Hs. exists (bits_msb_first (8 * size_of) (to_ull a)).
  split; [reflexivity | split; [apply bits_msb_first_length|]].
  unfold bin_value. rewrite bin_value_from_bits. unfold to_ull.
  rewrite Z.mul_0_l, Z.add_0_l.
  apply Z.mod_mod_divide.
  exists (2 ^ (64 - Z.of_nat (8 * size_of)))%Z.
  rewrite <- Z.pow_add_r by lia. f_equal. lia.
Qed.

Lemma toBin_digits_witness :
  exists digits,
    toBin 4 (-2) EmptyString = EmptyString ++ "[" ++ digits ++ "]"
    /\ String.length digits = (8 * 4)%nat
    /\ bin_value digits = ((-2) mod 2 ^ Z.of_nat (8 * 4))%Z.
Proof. apply (toBin_digits 4 (-2) EmptyString). simpl. lia. Defined.

Lemma put_bits_snoc (bits : list bool) (x : bool) (cerr : string) :
  put_bits (bits ++ [x]) cerr
  = put_bits bits cerr ++ (if x then "1" else "0").
Proof.
  revert cerr. induction bits as [|y r IH]; intros cerr; simpl;
    [reflexivity | apply IH].
Qed.

(** X18.  [_cerr] writes a bitset lowest bit first: for the same value
    and width it writes the mirror image of the digits [toBin] writes,
    and it takes no notice of the binary flag. *)
Theorem _cerr_bitset_mirrors_toBin (n : nat) (x : Z) (b : bool)
    (cerr : string) :
  _cerr (DBitset (bits_by_index n x)) b cerr
  = cerr ++ string_rev (bits_msb_first n x).
Proof.
  cbn [_cerr]. rewrite put_bits_app. f_equal.
  induction n as [|k IH]; [reflexivity|].
  unfold bits_by_index in *. rewrite seq_S, map_app. cbn [map Nat.add].
  rewrite put_bits_snoc, IH. cbn [bits_msb_first string_rev].
  now destruct (Z.testbit x (Z.of_nat k)).
Qed.

Example bitset_and_toBin_of_six :
  _cerr (DBitset (bits_by_index 8 6)) false EmptyString = "01100000"
  /\ toBin 1 6 EmptyString = "[00000110]".
Proof. split; reflexivity. Qed.

End DebugLaws.

(** ** Properties of [custom_hash] *)

Module HashingLaws.
Import Bits Hashing.

Lemma bswap64_range (x : Z) : 0 <= bswap64 x < 2 ^ 64.
Proof.
  unfold bswap64.
  pose proof (LittleEndianList.le_combine_bound
                (rev (LittleEndianList.le_split 8 x))) as H.
  rewrite length_rev, LittleEndianList.length_le_split in H. exact H.
Qed.

(** Reversing the bytes twice gives the value back. *)
Lemma bswap64_involutive (x : Z) :
  0 <= x < 2 ^ 64 -> bswap64 (bswap64 x) = x.
Proof.
  intros Hx. unfold bswap64.
  set (bs := rev (LittleEndianList.le_split 8 x)).
  assert (L : List.length bs = 8%nat)
    by (unfold bs; now rewrite length_rev, LittleEndianList.length_le_split).
  rewrite <- L at 1. rewrite LittleEndianList.split_le_combine.
  unfold bs. rewrite rev_involutive, LittleEndianList.le_combine_split.
  apply Z.mod_small. exact Hx.
Qed.

Lemma pow2_coprime_odd (c n : Z) :
  Z.odd c = true -> 0 <= n -> Z.gcd (2 ^ n) c = 1.
Proof.
  intros Hc Hn. apply Z.coprime_pow_l; [assumption|].
  apply Z.coprime_Bezout. exists (- (c / 2)), 1.
  pose proof (Z.div_mod c 2 ltac:(lia)) as E.
  rewrite Zmod_odd, Hc in E. lia.
Qed.

(** Multiplication by an odd constant, wrapped at 64 bits, loses
    nothing. *)
Lemma mul_odd_injective (c a b : Z) :
  Z.odd c = true ->
  0 <= a < 2 ^ 64 -> 0 <= b < 2 ^ 64 ->
  (a * c) mod 2 ^ 64 = (b * c) mod 2 ^ 64 -> a = b.
Proof.
  intros Hc Ha Hb E.
  assert (D : (2 ^ 64 | c * (a - b))).
  { apply Z.mod_divide; [lia|].
    rewrite Z.mul_comm, Z.mul_sub_distr_r, Zminus_mod, E, Z.sub_diag.
    reflexivity. }
  apply Z.gauss in D; [|apply pow2_coprime_odd; (assumption || lia)].
  destruct D as [k Hk]. assert (k = 0) by nia. lia.
Qed.

Lemma lxor_range (n a b : Z) :
  0 <= n -> 0 <= a < 2 ^ n -> 0 <= b < 2 ^ n -> 0 <= Z.lxor a b < 2 ^ n.
Proof.
  intros Hn Ha Hb.
  assert (E : Z.lxor a b mod 2 ^ n = Z.lxor a b).
  { apply Z.bits_inj'. intros i Hi.
    destruct (Z_lt_ge_dec i n) as [Hlt|Hge].
    - now rewrite Z.mod_pow2_bits_low by lia.
    - rewrite Z.mod_pow2_bits_high by lia. rewrite Z.lxor_spec.
      rewrite <- (Z.mod_small a (2 ^ n)), <- (Z.mod_small b (2 ^ n)) by lia.
      now rewrite !Z.mod_pow2_bits_high by lia. }
  rewrite <- E. apply Z.mod_pos_bound. apply Z.pow_pos_nonneg; lia.
Qed.

(** X19.  With an odd multiplier [C], [custom_hash] maps the 64-bit keys
    one-to-one into the 64-bit values: two different keys never get the
    same hash, whatever [RANDOM] is. *)
Theorem custom_hash_injective (h : custom_hash) (x y : Z) :
  Z.odd (C h) = true ->
  0 <= RANDOM h < 2 ^ 32 ->
  0 <= x < 2 ^ 64 -> 0 <= y < 2 ^ 64 ->
  0 <= hash h x < 2 ^ 64
  /\ (hash h x = hash h y -> x = y).
Proof.
  intros Hc Hr Hx Hy. split; [apply bswap64_range|].
  unfold hash. intros E.
  apply (f_equal bswap64) in E.
  rewrite !bswap64_involutive in E
    by (apply Z.mod_pos_bound; apply Z.pow_pos_nonneg; lia).
  assert (Hr' : 0 <= RANDOM h < 2 ^ 64).
  { split; [lia|]. apply Z.lt_trans with (2 ^ 32); [lia|].
    apply Z.pow_lt_mono_r; lia. }
  apply mul_odd_injective in E; try assumption;
    try (apply lxor_range; (assumption || lia)).
  apply (f_equal (fun z => Z.lxor z (RANDOM h))) in E.
  now rewrite !Z.lxor_assoc, Z.lxor_nilpotent, !Z.lxor_0_r in E.
Qed.

Example bswap64_values :
  bswap64 1 = 2 ^ 56
  /\ bswap64 72623859790382856 = 578437695752307201.
Proof. split; reflexivity. Qed.

Lemma custom_hash_injective_witness :
  let h := {| C := C_value; RANDOM := 305419896 |} in
  0 <= hash h 1 < 2 ^ 64 /\ (hash h 1 = hash h 2 -> 1 = 2).
Proof.
  intros h.
  apply (custom_hash_injective h 1 2); try reflexivity;
    simpl; lia.
Defined.

End HashingLaws.

(** ** [popcount] and [parity] under the bit helpers *)

Module BuiltinsLaws.
Import Bits BitsFacts BitsLaws Builtins.

Lemma ones_ext (w : nat) (u v : Z) :
  (forall i, 0 <= i < Z.of_nat w -> Z.testbit v i = Z.testbit u i) ->
  ones w v = ones w u.
Proof.
  induction w as [|k IH]; intros H; [reflexivity|].
  cbn [ones]. rewrite H by lia. rewrite IH; [reflexivity|].
  intros i Hi. apply H. lia.
Qed.

(** Two values that differ at most in bit [b] differ in their count by
    that bit. *)
Lemma ones_one_bit (w : nat) (u v b : Z) :
  0 <= b < Z.of_nat w ->
  (forall i, 0 <= i < Z.of_nat w -> i <> b ->
     Z.testbit v i = Z.testbit u i) ->
  ones w v = ones w u - Z.b2z (Z.testbit u b) + Z.b2z (Z.testbit v b).
Proof.
  induction w as [|k IH]; intros Hb H; [lia|].
  cbn [ones]. destruct (Z.eq_dec b (Z.of_nat k)) as [->|Hne].
  - rewrite (ones_ext k u v); [lia|]. intros i Hi. apply H; lia.
  - rewrite IH by (try lia; intros i Hi Hib; apply H; lia).
    rewrite (H (Z.of_nat k)) by lia. lia.
Qed.

Lemma popcount_ones (t : ity) (a : Z) :
  popcount t a = ones (Z.to_nat (width t)) (a mod 2 ^ width t).
Proof. destruct t; reflexivity. Qed.

Lemma parity_popcount (t : ity) (a : Z) : parity t a = popcount t a mod 2.
Proof. destruct t; reflexivity. Qed.

Lemma popcount_one_bit (t : ity) (a a' b : Z) :
  0 <= b < width t ->
  (forall i, 0 <= i < width t -> i <> b -> Z.testbit a' i = Z.testbit a i) ->
  popcount t a'
  = popcount t a - Z.b2z (Z.testbit a b) + Z.b2z (Z.testbit a' b).
Proof.
  intros Hb H. rewrite !popcount_ones.
  pose proof (width_pos t) as Hw.
  rewrite (ones_one_bit _ (a mod 2 ^ width t) (a' mod 2 ^ width t) b)
    by (try lia; intros i Hi Hib; rewrite !Z.mod_pow2_bits_low by lia;
        apply H; lia).
  now rewrite !Z.mod_pow2_bits_low by lia.
Qed.

(** X22.  The bit helpers move [popcount] by the bit they touch:
    [setBit] adds one when [checkBit] reported 0 before, [clearBit] takes
    one off when it reported 1, [toggleBit] always changes the count by
    one and so turns [parity] around. *)
Theorem popcount_after_mutators (t : ity) (a b r : Z) :
  in_range t a -> 0 <= b < width t ->
  checkBit t a b = Some r ->
  andThen (setBit t a b) (fun a' => Some (popcount t a'))
  = Some (popcount t a + 1 - r)
  /\ andThen (clearBit t a b) (fun a' => Some (popcount t a'))
     = Some (popcount t a - r)
  /\ andThen (toggleBit t a b) (fun a' => Some (popcount t a'))
     = Some (popcount t a + 1 - 2 * r)
  /\ andThen (toggleBit t a b) (fun a' => Some (parity t a'))
     = Some (1 - parity t a).
Proof.
  intros _ Hb Hr. pose proof (width_le_64 t) as Hw.
  rewrite checkBit_testbit in Hr by lia. injection Hr as <-.
  rewrite setBit_eq, clearBit_eq, toggleBit_eq by lia. cbn [andThen].
  rewrite conv_not_ull by lia.
  assert (Hm : forall i, 0 <= i < width t ->
                 Z.testbit (conv t (2 ^ b)) i = (b =? i)).
  { intros i Hi. apply conv_pow2_testbit; lia. }
  assert (Hset : popcount t (Z.lor a (conv t (2 ^ b)))
                 = popcount t a + 1 - (if Z.testbit a b then 1 else 0)).
  { rewrite (popcount_one_bit t a _ b Hb).
    - rewrite Z.lor_spec, Hm, Z.eqb_refl, orb_true_r by lia.
      destruct (Z.testbit a b); simpl; lia.
    - intros i Hi Hib. rewrite Z.lor_spec, Hm by lia.
      replace (b =? i) with false by (symmetry; apply Z.eqb_neq; lia).
      apply orb_false_r. }
  assert (Hclear : popcount t (Z.land a (Z.lnot (conv t (2 ^ b))))
                   = popcount t a - (if Z.testbit a b then 1 else 0)).
  { rewrite (popcount_one_bit t a _ b Hb).
    - rewrite Z.land_spec, Z.lnot_spec, Hm, Z.eqb_refl, andb_false_r by lia.
      destruct (Z.testbit a b); simpl; lia.
    - intros i Hi Hib. rewrite Z.land_spec, Z.lnot_spec, Hm by lia.
      replace (b =? i) with false by (symmetry; apply Z.eqb_neq; lia).
      apply andb_true_r. }
  assert (Htoggle : popcount t (Z.lxor a (conv t (2 ^ b)))
                    = popcount t a + 1 - 2 * (if Z.testbit a b then 1 else 0)).
  { rewrite (popcount_one_bit t a _ b Hb).
    - rewrite Z.lxor_spec, Hm, Z.eqb_refl by lia.
      destruct (Z.testbit a b); simpl; lia.
    - intros i Hi Hib. rewrite Z.lxor_spec, Hm by lia.
      replace (b =? i) with false by (symmetry; apply Z.eqb_neq; lia).
      apply xorb_false_r. }
  rewrite Hset, Hclear, Htoggle. repeat split.
  rewrite !parity_popcount, Htoggle. f_equal.
  destruct (Z.testbit a b); Z.div_mod_to_equations; lia.
Qed.

Lemma popcount_after_mutators_witness :
  andThen (setBit TInt 5 1) (fun a' => Some (popcount TInt a'))
  = Some (popcount TInt 5 + 1 - 0)
  /\ andThen (clearBit TInt 5 1) (fun a' => Some (popcount TInt a'))
     = Some (popcount TInt 5 - 0)
  /\ andThen (toggleBit TInt 5 1) (fun a' => Some (popcount TInt a'))
     = Some (popcount TInt 5 + 1 - 2 * 0)
  /\ andThen (toggleBit TInt 5 1) (fun a' => Some (parity TInt a'))
     = Some (1 - parity TInt 5).
Proof.
  apply (popcount_after_mutators TInt 5 1 0); try reflexivity;
    unfold in_range, in_signed; simpl; lia.
Defined.

Example popcount_values :
  popcount TInt (-1) = 32 /\ popcount TLL (-1) = 64
  /\ popcount TInt 5 = 2 /\ parity TInt 7 = 1 /\ popcount TInt 0 = 0.
Proof. repeat split. Qed.

End BuiltinsLaws.

(** ** [amin] and [amax] at [int] *)

Module MinMaxLaws.
Import Bits BitsFacts MinMax.

(** X20.  With an [int] variable and a [long long] candidate the
    variable stays an [int] whatever the candidate is, and when the
    candidate lies in the range of [int] the variable gets the minimum
    (for [amax]: the maximum) of the two. *)
Theorem amin_amax_int_ll (x y : Z) :
  in_int x ->
  in_int (amin_int_ll x y) /\ in_int (amax_int_ll x y)
  /\ (in_int y ->
      amin_int_ll x y = Z.min x y /\ amax_int_ll x y = Z.max x y).
Proof.
  intros Hx. unfold amin_int_ll, amax_int_ll, amin, amax.
  assert (Hc : in_int (to_int y)) by (apply to_signed_range; lia).
  split; [|split; [|intros Hy; split]].
  - destruct (y <? x); assumption.
  - destruct (y >? x); assumption.
  - unfold to_int. rewrite to_signed_small by (assumption || lia).
    destruct (Z.ltb_spec y x); lia.
  - unfold to_int. rewrite to_signed_small by (assumption || lia).
    rewrite Z.gtb_ltb. destruct (Z.ltb_spec x y); lia.
Qed.

Lemma amin_amax_int_ll_witness :
  in_int (amin_int_ll 7 (-4294967296)) /\ in_int (amax_int_ll 7 4294967296)
  /\ amin_int_ll 7 3 = Z.min 7 3 /\ amax_int_ll 7 9 = Z.max 7 9.
Proof.
  assert (H7 : in_int 7) by (unfold in_int, in_signed; simpl; lia).
  destruct (amin_amax_int_ll 7 (-4294967296) H7) as (A & _ & _).
  destruct (amin_amax_int_ll 7 4294967296 H7) as (_ & B & _).
  destruct (amin_amax_int_ll 7 3 H7) as (_ & _ & C).
  destruct (amin_amax_int_ll 7 9 H7) as (_ & _ & D).
  split; [exact A | split; [exact B | split]].
  - apply C. unfold in_int, in_signed. simpl. lia.
  - apply D. unfold in_int, in_signed. simpl. lia.
Defined.

(** X21.  [amax(x, lo)] followed by [amin(x, hi)] clamps an [int]: with
    [lo <= hi] the variable ends inside [lo .. hi], and a value that was
    inside already is left alone. *)
Theorem amax_then_amin_clamps (x lo hi : Z) :
  lo <= hi ->
  lo <= amin_int (amax_int x lo) hi <= hi
  /\ (lo <= x <= hi -> amin_int (amax_int x lo) hi = x).
Proof.
  intros Hle. unfold amin_int, amax_int, amin, amax.
  rewrite Z.gtb_ltb.
  destruct (Z.ltb_spec x lo); destruct (Z.ltb_spec hi lo);
    destruct (Z.ltb_spec hi x); lia.
Qed.

Lemma amax_then_amin_clamps_witness :
  0 <= amin_int (amax_int (-4) 0) 9 <= 9
  /\ amin_int (amax_int 5 0) 9 = 5.
Proof.
  destruct (amax_then_amin_clamps (-4) 0 9) as [A _]; [lia|].
  destruct (amax_then_amin_clamps 5 0 9) as [_ B]; [lia|].
  split; [exact A | apply B; lia].
Defined.

End MinMaxLaws.
